(** * Visual DAG editor: the DAG integrity engine

    A shallow embedding of the graph logic of the editor, the cycle
    search, the validation hook and the handlers of
    [src/components/DAGEditor.tsx], and the properties that the
    specification states about them.

    Identifiers are JavaScript strings.  [Set<string>] is a [gset string],
    [Map<string, string[]>] is a [gmap string (list string)], arrays are
    lists.  Coordinates are finite numbers, carried around as rationals:
    the editor logic never computes with them.  The id counter is a
    double that holds an integer, or an infinity; adding one to it rounds
    as doubles do.

    The handlers run one after the other, each on the state the previous
    one left.  What the editor calls and the sources do not contain is a
    parameter ([parseInt], the numerals of the integers beyond [2^53],
    the layout function of a session) or is
    modelled from the specification ([addEdge], the layered layout) and
    marked as such. *)

From Stdlib Require Import ZArith QArith Lqa.
From stdpp Require Import base option list relations gmap strings pretty.

#[local] Set Warnings "-clear-no-such-hyp,-register-all".

Local Open Scope string_scope.
Local Open Scope list_scope.
Local Open Scope nat_scope.

(** ** Data model *)

Record XYPosition := { pos_x : Q; pos_y : Q }.

(** [NodeData] of [src/types/graph.ts]. *)
Record NodeData := { data_label : string; data_id : string }.

(** The fields of a reactflow [Node] that the editor reads or writes. *)
Record Node := {
  node_id : string;
  node_type : string;
  node_position : XYPosition;
  node_data : NodeData;
  node_selected : bool
}.

(** The fields of a reactflow [Edge] that the editor reads or writes. *)
Record Edge := {
  edge_id : string;
  edge_source : string;
  edge_target : string;
  edge_selected : bool
}.

(** [GraphValidation] of [src/types/graph.ts]. *)
Record GraphValidation := {
  isValid : bool;
  errors : list string;
  warnings : list string
}.

(** ** The adjacency list

    [[
      nodes.forEach(node => adjacencyList.set(node.id, []));
      edges.forEach(edge => {
        const sourceConnections = adjacencyList.get(edge.source) || [];
        sourceConnections.push(edge.target);
        adjacencyList.set(edge.source, sourceConnections);
      });
    ]]
    An array is truthy even when empty, so [get(k) || []] is the stored
    array when there is one. *)

Definition neighbors (adjacencyList : gmap string (list string)) (nodeId : string)
  : list string :=
  default [] (adjacencyList !! nodeId).

Definition pushConnection (adjacencyList : gmap string (list string))
    (sourceId targetId : string) : gmap string (list string) :=
  <[sourceId := neighbors adjacencyList sourceId ++ [targetId]]> adjacencyList.

Definition buildAdjacencyList (nodes : list Node) (edges : list Edge)
  : gmap string (list string) :=
  foldl (λ adj edge, pushConnection adj (edge_source edge) (edge_target edge))
        (foldl (λ adj node, <[node_id node := []]> adj) ∅ nodes)
        edges.

(** ** Depth-first search

    The two sets of the search are shared by all the calls of [dfs]; they
    are threaded through as a state.  [dfs] is recursive on the graph, so
    the embedding carries a fuel; [None] means the fuel ran out. *)

Record DfsState := { visited : gset string; recStack : gset string }.

Definition dfsInit : DfsState := {| visited := ∅; recStack := ∅ |}.

Section Dfs.
Variable adjacencyList : gmap string (list string).

(** The [for (const neighbor of neighbors)] loop, for a given meaning of
    the recursive call. *)
Fixpoint forNeighbors (call : string → DfsState → option (bool * DfsState))
    (nbs : list string) (st : DfsState) : option (bool * DfsState) :=
  match nbs with
  | [] => Some (false, st)
  | neighbor :: rest =>
      if decide (neighbor ∉ visited st) then
        match call neighbor st with
        | Some (true, st') => Some (true, st')
        | Some (false, st') => forNeighbors call rest st'
        | None => None
        end
      else if decide (neighbor ∈ recStack st) then Some (true, st)
      else forNeighbors call rest st
  end.

Fixpoint dfs (fuel : nat) (nodeId : string) (st : DfsState)
  : option (bool * DfsState) :=
  match fuel with
  | O => None
  | S fuel' =>
      let st1 := {| visited := {[nodeId]} ∪ visited st;
                    recStack := {[nodeId]} ∪ recStack st |} in
      match forNeighbors (dfs fuel') (neighbors adjacencyList nodeId) st1 with
      | Some (true, st2) => Some (true, st2)
      | Some (false, st2) =>
          Some (false, {| visited := visited st2;
                          recStack := recStack st2 ∖ {[nodeId]} |})
      | None => None
      end
  end.

(** The [for (const node of nodes)] loop that starts a search at every
    node not visited yet. *)
Fixpoint forNodes (fuel : nat) (nodes : list Node) (st : DfsState)
  : option bool :=
  match nodes with
  | [] => Some false
  | node :: rest =>
      if decide (node_id node ∉ visited st) then
        match dfs fuel (node_id node) st with
        | Some (true, _) => Some true
        | Some (false, st') => forNodes fuel rest st'
        | None => None
        end
      else forNodes fuel rest st
  end.
End Dfs.

(** Every call of [dfs] visits a node that was not visited before, and a
    visited node is the id of a node or the target of a connection: no more
    calls than that can nest. *)
Definition searchFuel (nodes : list Node) (edges : list Edge) : nat :=
  S (S (length nodes + length edges)).

(** The search answers with this fuel ([hasCycle_answers],
    [wouldCreateCycle_answers] below), so the default is never used. *)
Definition answer (r : option bool) : bool := default false r.

(** ** Validation ([useDAGValidation.ts]) *)

Definition searchCycle (nodes : list Node) (edges : list Edge) : option bool :=
  forNodes (buildAdjacencyList nodes edges) (searchFuel nodes edges) nodes dfsInit.

Definition hasCycle (nodes : list Node) (edges : list Edge) : bool :=
  answer (searchCycle nodes edges).

Definition minNodesWarning : string :=
  "Graph should have at least 2 nodes for meaningful connections".
Definition cycleError : string :=
  "Graph contains cycles - DAG must be acyclic".
Definition selfReferenceError : string :=
  "Self-referential edges are not allowed in a DAG".
Definition disconnectedWarning : string :=
  "Some nodes are not connected to the graph".
Definition noConnectionsWarning : string :=
  "No connections between nodes".

(** [connectedNodes]: the set that collects both ends of every edge. *)
Definition connectedNodes (edges : list Edge) : gset string :=
  foldl (λ acc edge, {[edge_target edge]} ∪ ({[edge_source edge]} ∪ acc)) ∅ edges.

(** The function that [useDAGValidation] memoises.  [push] appends, so
    the two lists grow in the order of the checks. *)
Definition validate (nodes : list Node) (edges : list Edge) : GraphValidation :=
  let warnings1 :=
    if decide (length nodes < 2) then [minNodesWarning] else [] in
  let errors1 :=
    if hasCycle nodes edges then [cycleError] else [] in
  let selfReferentialEdges :=
    filter (λ edge, edge_source edge = edge_target edge) edges in
  let errors2 :=
    if decide (0 < length selfReferentialEdges)
    then errors1 ++ [selfReferenceError] else errors1 in
  let warnings2 :=
    if decide (1 < length nodes) then
      let warnings' :=
        if decide (size (connectedNodes edges) < length nodes ∧ 0 < length edges)
        then warnings1 ++ [disconnectedWarning] else warnings1 in
      if decide (length edges = 0)
      then warnings' ++ [noConnectionsWarning] else warnings'
    else warnings1 in
  {| isValid := bool_decide (length errors2 = 0);
     errors := errors2;
     warnings := warnings2 |}.

(** *** The hook and its memo cell

    [useDAGValidation(nodes, edges)] is [useMemo(..., [nodes, edges])]:
    React keeps the dependencies and the value of the previous render and
    computes again only when one of the dependencies is another object.
    An array of the React state is an object with an identity. *)

Record Arr (A : Type) := { arr_ref : nat; arr_items : list A }.
Arguments arr_ref {A} _.
Arguments arr_items {A} _.

Record MemoCell := {
  memo_deps : nat * nat;
  memo_value : GraphValidation
}.

Definition useMemo (cell : option MemoCell) (deps : nat * nat)
    (factory : unit → GraphValidation) : GraphValidation * option MemoCell :=
  match cell with
  | Some c =>
      if decide (memo_deps c = deps) then (memo_value c, cell)
      else let v := factory () in
           (v, Some {| memo_deps := deps; memo_value := v |})
  | None =>
      let v := factory () in
      (v, Some {| memo_deps := deps; memo_value := v |})
  end.

Definition useDAGValidation (cell : option MemoCell)
    (nodes : Arr Node) (edges : Arr Edge) : GraphValidation * option MemoCell :=
  useMemo cell (arr_ref nodes, arr_ref edges)
          (λ _, validate (arr_items nodes) (arr_items edges)).

(** The renders of a component, oldest first, and the memo cell they
    leave behind. *)
Definition renders (history : list (Arr Node * Arr Edge)) : option MemoCell :=
  foldl (λ cell r, (useDAGValidation cell r.1 r.2).2) None history.

(** The report that a render shows after a history of renders. *)
Definition reportAfter (history : list (Arr Node * Arr Edge))
    (nodes : Arr Node) (edges : Arr Edge) : GraphValidation :=
  (useDAGValidation (renders history) nodes edges).1.

(** ** The editor ([DAGEditor.tsx]) *)

(** The numbers that the id counter and [parseInt] take as values: a
    double that holds an integer, or an infinity.  [-Infinity] is
    [Math.max()] of no argument. *)
Inductive Num := NegInfinity | Int (z : Z) | PosInfinity.

(** The double nearest to an integer, a tie going to the even
    significand.  A significand has 53 bits, so every integer up to
    [2^53] in size is a double; from [2^1024] on the result is an
    infinity. *)
Definition nearestDouble (z : Z) : Num :=
  let n := Z.abs z in
  if (n <=? 2 ^ 53)%Z then Int z
  else
    let ulp := (2 ^ (Z.log2 n - 52))%Z in
    let q := (n `div` ulp)%Z in
    let r := (n `mod` ulp)%Z in
    let q' := if (2 * r <? ulp)%Z then q
              else if (ulp <? 2 * r)%Z then (q + 1)%Z
              else if Z.even q then q else (q + 1)%Z in
    if (q' * ulp <? 2 ^ 1024)%Z then Int (Z.sgn z * (q' * ulp))
    else if (z <? 0)%Z then NegInfinity else PosInfinity.

(** [n + 1] *)
Definition num_succ (n : Num) : Num :=
  match n with
  | NegInfinity => NegInfinity
  | Int z => nearestDouble (z + 1)
  | PosInfinity => PosInfinity
  end.

(** [Math.max(a, b)] *)
Definition num_max (a b : Num) : Num :=
  match a, b with
  | NegInfinity, _ => b
  | _, NegInfinity => a
  | PosInfinity, _ | _, PosInfinity => PosInfinity
  | Int x, Int y => Int (x `max` y)
  end.

Section NumberToString.
(** [Number.prototype.toString] on the integers beyond [2^53] is the
    platform's: there the language definition leaves digits of the
    numeral to the implementation, and from [10^21] on the numeral has an
    exponent. *)
Variable bigToString : Z → string.

(** [n.toString()]: up to [2^53] in size, the decimal numeral. *)
Definition toString (n : Num) : string :=
  match n with
  | NegInfinity => "-Infinity"
  | Int z => if (Z.abs z <=? 2 ^ 53)%Z then pretty z else bigToString z
  | PosInfinity => "Infinity"
  end.
End NumberToString.

Record Editor := {
  st_nodes : list Node;
  st_edges : list Edge;
  nodeIdCounter : Num
}.

Definition initialEditor : Editor :=
  {| st_nodes := []; st_edges := []; nodeIdCounter := Int 1 |}.

Inductive Toast := ToastError (msg : string) | ToastSuccess (msg : string).

(** A reactflow [Connection] between two handles: both ends are set. *)
Record Connection := { conn_source : string; conn_target : string }.

Definition searchNewCycle (nodes : list Node) (edges : list Edge)
    (sourceId targetId : string) : option bool :=
  forNodes (pushConnection (buildAdjacencyList nodes edges) sourceId targetId)
           (S (searchFuel nodes edges)) nodes dfsInit.

Definition wouldCreateCycle (nodes : list Node) (edges : list Edge)
    (sourceId targetId : string) : bool :=
  answer (searchNewCycle nodes edges sourceId targetId).

Definition isValidConnection (nodes : list Node) (edges : list Edge)
    (connection : Connection) : bool :=
  if decide (conn_source connection = conn_target connection) then false
  else negb (wouldCreateCycle nodes edges
               (conn_source connection) (conn_target connection)).

(** The edge that stands for a connection from [s] to [t]. *)
Definition mkEdge (s t : string) : Edge :=
  {| edge_id := "reactflow__edge-" +:+ s +:+ "-" +:+ t;
     edge_source := s; edge_target := t; edge_selected := false |}.

(** Modelled from the spec: [addEdge] is reactflow's and is not among the
    sources; the spec has [connect] append the edge to the edge
    collection. *)
Definition addEdge (params : Connection) (eds : list Edge) : list Edge :=
  eds ++ [mkEdge (conn_source params) (conn_target params)].

Definition cycleToast : Toast := ToastError "Connection would create a cycle".

Definition onConnect (params : Connection) (ed : Editor) : Editor * option Toast :=
  if isValidConnection (st_nodes ed) (st_edges ed) params
  then ({| st_nodes := st_nodes ed;
           st_edges := addEdge params (st_edges ed);
           nodeIdCounter := nodeIdCounter ed |}, None)
  else (ed, Some cycleToast).

(** [onAddNode]; [rx] and [ry] are the two draws of [Math.random()]. *)
Definition onAddNode (bigToString : Z → string) (label : string) (rx ry : Q)
    (ed : Editor) : Editor :=
  let newNode :=
    {| node_id := toString bigToString (nodeIdCounter ed);
       node_type := "custom";
       node_position := {| pos_x := rx * 400 + 100; pos_y := ry * 400 + 100 |};
       node_data := {| data_label := label;
                       data_id := toString bigToString (nodeIdCounter ed) |};
       node_selected := false |} in
  {| st_nodes := st_nodes ed ++ [newNode];
     st_edges := st_edges ed;
     nodeIdCounter := num_succ (nodeIdCounter ed) |}.

(** [onClear]; [confirmed] is the answer to the [confirm] dialog. *)
Definition onClear (confirmed : bool) (ed : Editor) : Editor :=
  if confirmed
  then {| st_nodes := []; st_edges := []; nodeIdCounter := Int 1 |}
  else ed.

(** The [Delete] / [Backspace] branch of [handleKeyDown]. *)
Definition handleKeyDown (ed : Editor) : Editor :=
  let selectedNodes := filter (λ node, node_selected node) (st_nodes ed) in
  let selectedEdges := filter (λ edge, edge_selected edge) (st_edges ed) in
  if decide (0 < length selectedNodes ∨ 0 < length selectedEdges)
  then {| st_nodes := filter (λ node, ¬ node_selected node) (st_nodes ed);
          st_edges := filter (λ edge, ¬ edge_selected edge) (st_edges ed);
          nodeIdCounter := nodeIdCounter ed |}
  else ed.

(** The selection is kept by reactflow in the [selected] field of the
    nodes and edges; this marks the ones the user picked. *)
Definition select (nodeIds edgeIds : list string) (ed : Editor) : Editor :=
  {| st_nodes :=
       (λ node, {| node_id := node_id node; node_type := node_type node;
                   node_position := node_position node;
                   node_data := node_data node;
                   node_selected := bool_decide (node_id node ∈ nodeIds) |})
       <$> st_nodes ed;
     st_edges :=
       (λ edge, {| edge_id := edge_id edge; edge_source := edge_source edge;
                   edge_target := edge_target edge;
                   edge_selected := bool_decide (edge_id edge ∈ edgeIds) |})
       <$> st_edges ed;
     nodeIdCounter := nodeIdCounter ed |}.

(** [deleteSelection(nodeIds, edgeIds)] of the spec: pick, then press
    the key. *)
Definition deleteSelection (nodeIds edgeIds : list string) (ed : Editor) : Editor :=
  handleKeyDown (select nodeIds edgeIds ed).

(** ** Layout

    [src/utils/autoLayout.ts] is not among the sources. *)

(** The sources of the edges that end in [nodeId]. *)
Definition predecessors (edges : list Edge) (nodeId : string) : list string :=
  edge_source <$> filter (λ edge, edge_target edge = nodeId) edges.

(** A node can be placed once all its direct predecessors are. *)
Definition ready (edges : list Edge) (layer : gmap string nat) (node : Node) : Prop :=
  Forall (λ p, p ∈ dom layer) (predecessors edges (node_id node)).

#[local] Instance ready_dec edges layer node : Decision (ready edges layer node).
Proof. unfold ready. apply _. Defined.

(** Modelled from the spec: the layering of [getLayoutedElements], which
    is missing.  The spec groups the nodes into layers by topological
    depth: the nodes without incoming edges are layer 0 and a node's layer
    is one more than the maximum layer of its direct predecessors.  Round
    [k] places at layer [k] the nodes whose predecessors were all placed
    in earlier rounds.  The rounds stop when no node can be placed; the
    result is the layers and the index of the first unused layer. *)
Fixpoint assignLayers (fuel k : nat) (edges : list Edge) (remaining : list Node)
    (layer : gmap string nat) : gmap string nat * nat :=
  match fuel with
  | O => (layer, k)
  | S fuel' =>
      match filter (ready edges layer) remaining with
      | [] => (layer, k)
      | batch =>
          assignLayers fuel' (S k) edges
            (filter (λ node, ¬ ready edges layer node) remaining)
            (foldr (λ node acc, <[node_id node := k]> acc) layer batch)
      end
  end.

(** Modelled from the spec: the layer of a node.  A node whose depth
    cannot be resolved because of a cycle falls into the terminal layer,
    the one after the last layer in use. *)
Definition layerOf (nodes : list Node) (edges : list Edge) (nodeId : string) : nat :=
  let '(layer, terminal) := assignLayers (length nodes) 0 edges nodes ∅ in
  default terminal (layer !! nodeId).

Section Layout.
(** The fixed gaps between the nodes of a layer and between layers. *)
Variables horizontalGap verticalGap : Q.

(** The nodes of [nodes] before position [i] that share the layer [l]. *)
Definition rankInLayer (nodes : list Node) (edges : list Edge)
    (i l : nat) : nat :=
  length (filter (λ node, layerOf nodes edges (node_id node) = l) (take i nodes)).

(** Modelled from the spec: [getLayoutedElements], which is missing
    (the spec calls it [computeLayout]).  Every node gets a new
    position: its layer gives [y]; in a layer the nodes keep their
    relative order, which gives [x].  The edges are returned as they
    are. *)
Definition computeLayout (nodes : list Node) (edges : list Edge)
  : list Node * list Edge :=
  (imap (λ i node,
      let l := layerOf nodes edges (node_id node) in
      {| node_id := node_id node; node_type := node_type node;
         node_position :=
           {| pos_x := inject_Z (Z.of_nat (rankInLayer nodes edges i l))
                       * horizontalGap;
              pos_y := inject_Z (Z.of_nat l) * verticalGap |};
         node_data := node_data node;
         node_selected := node_selected node |}) nodes,
   edges).
End Layout.

(** ** An editing session *)

Section Session.
(** The platform's numerals of the integers beyond [2^53]. *)
Variable bigToString : Z → string.
(** The layout function that the editor imports. *)
Variable getLayoutedElements : list Node → list Edge → list Node * list Edge.

Definition onAutoLayout (ed : Editor) : Editor :=
  let '(layoutedNodes, layoutedEdges) :=
    getLayoutedElements (st_nodes ed) (st_edges ed) in
  {| st_nodes := layoutedNodes; st_edges := layoutedEdges;
     nodeIdCounter := nodeIdCounter ed |}.

Inductive Op :=
| AddNode (label : string) (rx ry : Q)
| ConnectNodes (params : Connection)
| DeleteSelection (nodeIds edgeIds : list string)
| Clear (confirmed : bool)
| AutoLayout.

Definition step (ed : Editor) (op : Op) : Editor :=
  match op with
  | AddNode label rx ry => onAddNode bigToString label rx ry ed
  | ConnectNodes params => (onConnect params ed).1
  | DeleteSelection nodeIds edgeIds => deleteSelection nodeIds edgeIds ed
  | Clear confirmed => onClear confirmed ed
  | AutoLayout => onAutoLayout ed
  end.

(** The ids that the [addNode] calls of a session allocate, oldest
    first. *)
Fixpoint allocated (ed : Editor) (ops : list Op) : list string :=
  match ops with
  | [] => []
  | op :: rest =>
      match op with
      | AddNode _ _ _ =>
          toString bigToString (nodeIdCounter ed) :: allocated (step ed op) rest
      | _ => allocated (step ed op) rest
      end
  end.
End Session.

(** ** Export and import *)

(** A JSON document.  An object is the list of its properties. *)
Inductive JSON :=
| JNull
| JBool (b : bool)
| JNumber (q : Q)
| JString (s : string)
| JArray (items : list JSON)
| JObject (properties : list (string * JSON)).

Definition positionToJSON (p : XYPosition) : JSON :=
  JObject [("x", JNumber (pos_x p)); ("y", JNumber (pos_y p))].

Definition nodeToJSON (node : Node) : JSON :=
  JObject [("id", JString (node_id node));
           ("type", JString (node_type node));
           ("position", positionToJSON (node_position node));
           ("data", JObject [("label", JString (data_label (node_data node)));
                             ("id", JString (data_id (node_data node)))]);
           ("selected", JBool (node_selected node))].

Definition edgeToJSON (edge : Edge) : JSON :=
  JObject [("id", JString (edge_id edge));
           ("source", JString (edge_source edge));
           ("target", JString (edge_target edge));
           ("selected", JBool (edge_selected edge))].

(** The typed reading of a document, the way the editor uses the value
    it holds at the type [Node[]] or [Edge[]]. *)
Definition nodeOfJSON (v : JSON) : option Node :=
  match v with
  | JObject [("id", JString i); ("type", JString t);
             ("position", JObject [("x", JNumber x); ("y", JNumber y)]);
             ("data", JObject [("label", JString l); ("id", JString di)]);
             ("selected", JBool sel)] =>
      Some {| node_id := i; node_type := t;
              node_position := {| pos_x := x; pos_y := y |};
              node_data := {| data_label := l; data_id := di |};
              node_selected := sel |}
  | _ => None
  end.

Definition edgeOfJSON (v : JSON) : option Edge :=
  match v with
  | JObject [("id", JString i); ("source", JString s); ("target", JString t);
             ("selected", JBool sel)] =>
      Some {| edge_id := i; edge_source := s; edge_target := t;
              edge_selected := sel |}
  | _ => None
  end.

Definition listOfJSON {A} (read : JSON → option A) (v : JSON) : option (list A) :=
  match v with
  | JArray items => mapM read items
  | _ => None
  end.

(** [onExport]: the object that is written to the file.  [graphName] is
    [selectedGraph?.name], [isoTime] is [new Date().toISOString()]. *)
Definition onExport (graphName : option string) (isoTime : string) (ed : Editor)
  : JSON :=
  JObject [("nodes", JArray (nodeToJSON <$> st_nodes ed));
           ("edges", JArray (edgeToJSON <$> st_edges ed));
           ("graphName",
            JString (match graphName with
                     | Some name => if decide (name = "") then "Untitled Graph"
                                    else name
                     | None => "Untitled Graph"
                     end));
           ("timestamp", JString isoTime)].

(** What the React state holds: [setNodes] and [setEdges] store the value
    they are given, whatever its shape. *)
Record Store := {
  raw_nodes : JSON;
  raw_edges : JSON;
  raw_counter : Num
}.

Definition storeOf (ed : Editor) : Store :=
  {| raw_nodes := JArray (nodeToJSON <$> st_nodes ed);
     raw_edges := JArray (edgeToJSON <$> st_edges ed);
     raw_counter := nodeIdCounter ed |}.

Fixpoint lookupProperty (key : string) (properties : list (string * JSON))
  : option JSON :=
  match properties with
  | [] => None
  | (k, v) :: rest => if decide (k = key) then Some v else lookupProperty key rest
  end.

(** [v.key] for a [v] that is not [null], and for the keys the editor
    reads ([nodes], [edges], [id]), which only an object can have;
    [None] is [undefined]. *)
Definition property (v : JSON) (key : string) : option JSON :=
  match v with
  | JObject properties => lookupProperty key properties
  | _ => None
  end.

(** The truth value of a JavaScript value in a condition. *)
Definition truthy (v : option JSON) : bool :=
  match v with
  | None | Some JNull => false
  | Some (JBool b) => b
  | Some (JNumber q) => negb (Qeq_bool q 0)
  | Some (JString s) => bool_decide (s ≠ "")
  | Some (JArray _) | Some (JObject _) => true
  end.

Definition importError : Toast :=
  ToastError "Invalid file format. Please select a valid DAG export file.".
Definition importSuccess : Toast := ToastSuccess "Graph imported successfully".

(** What a call of [parseInt] comes to. *)
Inductive Parsed := ParseThrows | ParseNaN | ParseNumber (n : Num).

(** The platform's [parseInt].  It turns its argument into a string
    first.  For [undefined], [null], a boolean, a number or a string that
    cannot fail, and the result is a number or [NaN], which is [None].
    For an array or an object it goes through their [toString] and
    [valueOf], and throws a [TypeError] when these give no primitive
    value. *)
Record ParseInt := {
  parsePrimitive : option JSON → option Num;
  parseObject : JSON → Parsed
}.

Definition callParseInt (parseInt : ParseInt) (v : option JSON) : Parsed :=
  match v with
  | Some (JArray items) => parseObject parseInt (JArray items)
  | Some (JObject properties) => parseObject parseInt (JObject properties)
  | _ => match parsePrimitive parseInt v with
         | Some n => ParseNumber n
         | None => ParseNaN
         end
  end.

Section FileImport.
Variable parseInt : ParseInt.

(** [parseInt(n.id) || 0] for an element [n] of the array; [None] when
    the evaluation throws a [TypeError]: [n] is [null], or [parseInt]
    throws. *)
Definition idNumber (n : JSON) : option Num :=
  match n with
  | JNull => None
  | _ => match callParseInt parseInt (property n "id") with
         | ParseThrows => None
         | ParseNaN => Some (Int 0)
         | ParseNumber m => Some m
         end
  end.

(** [Math.max(...data.nodes.map((n) => parseInt(n.id) || 0))];
    [None] when the evaluation throws a [TypeError]: [data.nodes] has no
    [map], or the evaluation for an element throws. *)
Definition maxId (dataNodes : JSON) : option Num :=
  match dataNodes with
  | JArray items =>
      ids ← mapM idNumber items;
      Some (foldr num_max NegInfinity ids)
  | _ => None
  end.

(** [reader.onload] of [onImport].  The file is represented by what
    [JSON.parse] makes of its text: a document, or [None] for a
    [SyntaxError].  Every exception ends in the [catch] block; what was
    set before it stays set. *)
Definition onImport (file : option JSON) (s : Store) : Store * option Toast :=
  match file with
  | None => (s, Some importError)
  | Some JNull => (s, Some importError)
  | Some data =>
      match property data "nodes", property data "edges" with
      | Some dataNodes, Some dataEdges =>
          if truthy (Some dataNodes) && truthy (Some dataEdges) then
            let s1 := {| raw_nodes := dataNodes; raw_edges := dataEdges;
                         raw_counter := raw_counter s |} in
            match maxId dataNodes with
            | Some m =>
                ({| raw_nodes := dataNodes; raw_edges := dataEdges;
                    raw_counter := num_succ m |}, Some importSuccess)
            | None => (s1, Some importError)
            end
          else (s, None)
      | _, _ => (s, None)
      end
  end.
End FileImport.

(** ** Graph notions of the specification *)

(** The directed graph of an edge collection. *)
Definition edgeRel (edges : list Edge) (x y : string) : Prop :=
  ∃ edge, edge ∈ edges ∧ edge_source edge = x ∧ edge_target edge = y.

(** A cycle is a directed path of one edge at least from a node back to
    itself. *)
Definition hasDirectedCycle (edges : list Edge) : Prop :=
  ∃ x, tc (edgeRel edges) x x.

(** A cycle on a path that starts at a node of the node collection. *)
Definition reachableCycle (nodes : list Node) (edges : list Edge) : Prop :=
  ∃ node x, node ∈ nodes ∧ rtc (edgeRel edges) (node_id node) x
            ∧ tc (edgeRel edges) x x.

(** [nodeId] is the id of a node of the node collection. *)
Definition present (nodes : list Node) (nodeId : string) : Prop :=
  nodeId ∈ node_id <$> nodes.

#[local] Instance present_dec nodes nodeId : Decision (present nodes nodeId).
Proof. unfold present. apply _. Defined.

(** No dangling reference: both ends of every edge are in the node
    collection. *)
Definition noDangling (nodes : list Node) (edges : list Edge) : Prop :=
  ∀ edge, edge ∈ edges →
    present nodes (edge_source edge) ∧ present nodes (edge_target edge).

(** ** Notions of the statements about the editor *)

(** [connect] answered by appending the edge, without a message. *)
Definition accepted (params : Connection) (ed : Editor) : Prop :=
  onConnect params ed
  = ({| st_nodes := st_nodes ed;
        st_edges := st_edges ed
                    ++ [mkEdge (conn_source params) (conn_target params)];
        nodeIdCounter := nodeIdCounter ed |}, None).

(** [connect] left the editor as it was and signalled a cycle. *)
Definition rejected (params : Connection) (ed : Editor) : Prop :=
  onConnect params ed = (ed, Some cycleToast).

(** A directed cycle, if there is one, can be reached from a node of the
    node collection. *)
Definition cyclesReachable (nodes : list Node) (edges : list Edge) : Prop :=
  hasDirectedCycle edges → reachableCycle nodes edges.

(** The graph with the proposed edge added has a directed cycle. *)
Definition createsCycle (params : Connection) (ed : Editor) : Prop :=
  hasDirectedCycle
    (st_edges ed ++ [mkEdge (conn_source params) (conn_target params)]).

(** Every edge at a selected node is selected too. *)
Definition incidentSelected (ed : Editor) : Prop :=
  ∀ edge node, edge ∈ st_edges ed → node ∈ st_nodes ed →
    node_selected node →
    edge_source edge = node_id node ∨ edge_target edge = node_id node →
    edge_selected edge.

(** A session without a confirmed [clear]. *)
Definition noClear (ops : list Op) : Prop :=
  Forall (λ op, op ≠ Clear true) ops.

(** No array of the React state is modified in place: in a sequence of
    renders, the same object has the same items every time. *)
Definition immutable (rs : list (Arr Node * Arr Edge)) : Prop :=
  ∀ r r', r ∈ rs → r' ∈ rs →
    (arr_ref r.1 = arr_ref r'.1 → arr_items r.1 = arr_items r'.1)
    ∧ (arr_ref r.2 = arr_ref r'.2 → arr_items r.2 = arr_items r'.2).

(** ** Notions of the proofs about the search *)

Section SearchNotions.
Variable adjacencyList : gmap string (list string).

(** The directed graph that the adjacency list denotes. *)
Definition arrow (x y : string) : Prop := y ∈ neighbors adjacencyList x.

(** A node that lies on a directed cycle. *)
Definition onCycle (x : string) : Prop := tc arrow x x.

(** A node is finished when it is visited and no longer on the stack. *)
Definition finished (st : DfsState) (x : string) : Prop :=
  x ∈ visited st ∧ x ∉ recStack st.

(** What holds of the two sets between two calls: the stack is visited,
    the finished nodes lead to finished nodes only, and none of them
    lies on a cycle. *)
Record dfsInv (st : DfsState) : Prop := {
  inv_stack : recStack st ⊆ visited st;
  inv_closed : ∀ x y, finished st x → arrow x y → finished st y;
  inv_acyclic : ∀ x, finished st x → ¬ onCycle x
}.

(** All the nodes a search can reach, and how many are left. *)
Variable universe : gset string.

Definition unvisited (st : DfsState) : nat := size (universe ∖ visited st).

(** What a call, or a loop, guarantees when it is entered at [st] for
    the node [c]: it answers; [true] comes with a cycle that [c]
    reaches; [false] leaves the stack as it was. *)
Definition outcome (c : string) (st : DfsState)
    (r : option (bool * DfsState)) : Prop :=
  ∃ b st', r = Some (b, st') ∧
    if b then ∃ x, rtc arrow c x ∧ onCycle x
    else recStack st' = recStack st ∧ visited st ⊆ visited st' ∧ dfsInv st'.

(** A cycle that can be reached from one of the nodes. *)
Definition cycleFrom (nodes : list Node) : Prop :=
  ∃ node x, node ∈ nodes ∧ rtc arrow (node_id node) x ∧ onCycle x.
End SearchNotions.

Arguments inv_stack {_ _} _.
Arguments inv_closed {_ _} _.
Arguments inv_acyclic {_ _} _.

(** The ids of the nodes, the targets of the edges, and [extra]. *)
Definition searchUniverse (nodes : list Node) (edges : list Edge)
    (extra : list string) : gset string :=
  list_to_set ((node_id <$> nodes) ++ (edge_target <$> edges) ++ extra).

(** ** Notions of the proofs about the memo cell and the layers *)

(** The memo cell holds the report of one of the renders. *)
Definition cellOf (rs : list (Arr Node * Arr Edge)) (cell : option MemoCell) : Prop :=
  match cell with
  | None => True
  | Some c => ∃ r, r ∈ rs
                ∧ memo_deps c = (arr_ref r.1, arr_ref r.2)
                ∧ memo_value c = validate (arr_items r.1) (arr_items r.2)
  end.

(** What holds between two rounds of [assignLayers]: every node is placed
    or remains; the placed nodes are below [k], above all their
    predecessors and, unless at layer 0, just above one of them; a node
    that remains was not ready one round ago. *)
Record layersInv (nodes : list Node) (edges : list Edge) (k : nat)
    (remaining : list Node) (layer : gmap string nat) : Prop := {
  lay_cover : ∀ i, present nodes i → i ∈ dom layer ∨ present remaining i;
  lay_fresh : ∀ node, node ∈ remaining → node_id node ∉ dom layer;
  lay_below : ∀ i l, layer !! i = Some l → l < k;
  lay_preds : ∀ i l, layer !! i = Some l →
    Forall (λ p, ∃ lp, layer !! p = Some lp ∧ lp < l) (predecessors edges i);
  lay_tight : ∀ i l, layer !! i = Some l → 0 < l →
    ∃ p, p ∈ predecessors edges i ∧ layer !! p = Some (l - 1);
  lay_late : 0 < k → ∀ node, node ∈ remaining →
    ∃ p, p ∈ predecessors edges (node_id node)
         ∧ (p ∉ dom layer ∨ layer !! p = Some (k - 1))
}.

(** ** Sample graphs *)

(** A node as [onAddNode] makes it, at the origin. *)
Definition mkNode (i : string) : Node :=
  {| node_id := i; node_type := "custom";
     node_position := {| pos_x := 0; pos_y := 0 |};
     node_data := {| data_label := "Node " +:+ i; data_id := i |};
     node_selected := false |}.

(** The chain of the specification's scenario: nodes 1, 2 and 3, edges
    1→2 and 2→3. *)
Definition chain123 : Editor :=
  {| st_nodes := [mkNode "1"; mkNode "2"; mkNode "3"];
     st_edges := [mkEdge "1" "2"; mkEdge "2" "3"];
     nodeIdCounter := Int 4 |}.

(** Nodes 1 and 2 with the edge 1→2. *)
Definition pair12 : Editor :=
  {| st_nodes := [mkNode "1"; mkNode "2"];
     st_edges := [mkEdge "1" "2"];
     nodeIdCounter := Int 3 |}.

(** Nodes 1 and 2, with the edges 3→4 and 4→3 left behind by two
    deleted nodes. *)
Definition danglingCycle : Editor :=
  {| st_nodes := [mkNode "1"; mkNode "2"];
     st_edges := [mkEdge "3" "4"; mkEdge "4" "3"];
     nodeIdCounter := Int 5 |}.

(** Numerals for the integers beyond [2^53] in the examples, none of which
    gets there. *)
Definition plainDigits : Z → string := pretty.

(** A layout that leaves every node where it is. *)
Definition noLayout (nodes : list Node) (edges : list Edge)
  : list Node * list Edge := (nodes, edges).

(** The file of the specification's scenario:
    [{"nodes":[],"edges":"not-an-array"}]. *)
Definition edgesNotAnArray : JSON :=
  JObject [("nodes", JArray []); ("edges", JString "not-an-array")].

(** The cycle between 1 and 2 in arrays of given identities, and two
    earlier renders: one of the empty graph, one of the cycle. *)
Definition cycleNodes (ref : nat) : Arr Node :=
  {| arr_ref := ref; arr_items := [mkNode "1"; mkNode "2"] |}.

Definition cycleEdges (ref : nat) : Arr Edge :=
  {| arr_ref := ref; arr_items := [mkEdge "1" "2"; mkEdge "2" "1"] |}.

(** One render of the empty graph, in the arrays 1 and 2. *)
Definition emptyRender : list (Arr Node * Arr Edge) :=
  [({| arr_ref := 1; arr_items := [] |}, {| arr_ref := 2; arr_items := [] |})].

Definition earlierRenders : list (Arr Node * Arr Edge) :=
  [({| arr_ref := 3; arr_items := [] |}, {| arr_ref := 4; arr_items := [] |});
   (cycleNodes 5, cycleEdges 6)].

(** The two ends of an edge. *)
Definition ends (edge : Edge) : string * string :=
  (edge_source edge, edge_target edge).

(** The editor after a sequence of operations. *)
Definition run (bigToString : Z → string)
    (layout : list Node → list Edge → list Node * list Edge)
    (ed : Editor) (ops : list Op) : Editor :=
  foldl (step bigToString layout) ed ops.

(** Every connection of the session starts or ends at a node that is
    there when the connection is made, as the connections that reactflow
    reports do. *)
Fixpoint connectsPresent (bigToString : Z → string)
    (layout : list Node → list Edge → list Node * list Edge)
    (ed : Editor) (ops : list Op) : Prop :=
  match ops with
  | [] => True
  | op :: rest =>
      match op with
      | ConnectNodes params =>
          present (st_nodes ed) (conn_source params)
          ∨ present (st_nodes ed) (conn_target params)
      | _ => True
      end
      ∧ connectsPresent bigToString layout (step bigToString layout ed op) rest
  end.

(** The layout returns no edge between two ids that it was not given. *)
Definition keepsEdges (layout : list Node → list Edge → list Node * list Edge)
  : Prop :=
  ∀ nodes edges x y, edgeRel (layout nodes edges).2 x y → edgeRel edges x y.

(** ** The undo history ([hooks/useHistory.ts]) *)

Record HistoryState := {
  hs_nodes : list Node;
  hs_edges : list Edge;
  hs_timestamp : Z
}.

(** The two state cells of the hook. *)
Record History := {
  history : list HistoryState;
  currentIndex : Z
}.

Definition MAX_HISTORY_SIZE : nat := 50.

(** [l.slice(0, e)]: a negative [e] counts from the end of the array. *)
Definition slice0 {A} (l : list A) (e : Z) : list A :=
  if (e <? 0)%Z then take (Z.to_nat (Z.of_nat (length l) + e)) l
  else take (Z.to_nat e) l.

(** [l[i]]; [None] is [undefined]. *)
Definition item {A} (l : list A) (i : Z) : option A :=
  if (i <? 0)%Z then None else l !! Z.to_nat i.

(** The state the hook starts from; [now] is [Date.now()]. *)
Definition useHistory (initialNodes : list Node) (initialEdges : list Edge)
    (now : Z) : History :=
  {| history := [{| hs_nodes := initialNodes; hs_edges := initialEdges;
                    hs_timestamp := now |}];
     currentIndex := 0 |}.

Definition pushToHistory (nodes : list Node) (edges : list Edge) (now : Z)
    (h : History) : History :=
  let newHistory :=
    slice0 (history h) (currentIndex h + 1)
    ++ [{| hs_nodes := nodes; hs_edges := edges; hs_timestamp := now |}] in
  if decide (MAX_HISTORY_SIZE < length newHistory)
  then {| history := tail newHistory;
          currentIndex := (currentIndex h - 1)%Z |}
  else {| history := newHistory;
          currentIndex := (Z.of_nat (length newHistory) - 1)%Z |}.

(** [undo] and [redo] return the snapshot to restore ([None] is [null] or
    [undefined]) beside the state of the hook. *)
Definition undo (h : History) : option HistoryState * History :=
  if (0 <? currentIndex h)%Z
  then (item (history h) (currentIndex h - 1),
        {| history := history h; currentIndex := (currentIndex h - 1)%Z |})
  else (None, h).

Definition redo (h : History) : option HistoryState * History :=
  if (currentIndex h <? Z.of_nat (length (history h)) - 1)%Z
  then (item (history h) (currentIndex h + 1),
        {| history := history h; currentIndex := (currentIndex h + 1)%Z |})
  else (None, h).

Definition canUndo (h : History) : bool := (0 <? currentIndex h)%Z.
Definition canRedo (h : History) : bool :=
  (currentIndex h <? Z.of_nat (length (history h)) - 1)%Z.
Definition currentState (h : History) : option HistoryState :=
  item (history h) (currentIndex h).

(** The [Ctrl+Z] and [Ctrl+Shift+Z] / [Ctrl+Y] branches of [handleKeyDown],
    which are also the panel's undo and redo buttons. *)
Definition restore (state : option HistoryState) (ed : Editor) : Editor :=
  match state with
  | Some s => {| st_nodes := hs_nodes s; st_edges := hs_edges s;
                 nodeIdCounter := nodeIdCounter ed |}
  | None => ed
  end.

Definition onUndo (eh : Editor * History) : Editor * History :=
  (restore (undo eh.2).1 eh.1, (undo eh.2).2).

Definition onRedo (eh : Editor * History) : Editor * History :=
  (restore (redo eh.2).1 eh.1, (redo eh.2).2).

(** The calls a client makes on the hook. *)
Inductive HistoryOp :=
| Push (nodes : list Node) (edges : list Edge) (now : Z)
| Undo
| Redo.

Definition historyStep (h : History) (op : HistoryOp) : History :=
  match op with
  | Push nodes edges now => pushToHistory nodes edges now h
  | Undo => (undo h).2
  | Redo => (redo h).2
  end.

Definition historyRun (ops : list HistoryOp) (h : History) : History :=
  foldl historyStep h ops.

(** The index points into the array, which holds at most
    [MAX_HISTORY_SIZE] snapshots. *)
Definition historyInv (h : History) : Prop :=
  length (history h) ≤ MAX_HISTORY_SIZE ∧
  (0 ≤ currentIndex h < Z.of_nat (length (history h)))%Z.

Definition fullHistory : History :=
  historyRun (replicate 49 (Push [] [] 0)) (useHistory [] [] 0).

Definition threeSnapshots : History :=
  historyRun [Push [mkNode "1"] [] 1; Push [mkNode "1"; mkNode "2"] [] 2]
             (useHistory [] [] 0).
(** ** Loading the selected graph ([DAGEditor.tsx], the first effect) *)

(** A row of [dag_graphs] ([types/database.ts]); [nodes], [edges] and the
    two configuration fields have the type [any]. *)
Record DAGGraph := {
  graph_id : string;
  graph_project_id : string;
  graph_name : string;
  graph_nodes : JSON;
  graph_edges : JSON;
  graph_layout_config : JSON;
  graph_validation_status : JSON;
  graph_created_at : string;
  graph_updated_at : string
}.

(** [Array.isArray(v) ? v : []] *)
Definition arrayOrEmpty (v : JSON) : list JSON :=
  match v with JArray items => items | _ => [] end.

Section GraphLoad.
Variable parseInt : ParseInt.

(** The effect that runs when [selectedGraph] changes; [None] when the
    evaluation of [maxId] throws, which nothing catches. *)
Definition loadGraph (selectedGraph : option DAGGraph) : option Store :=
  match selectedGraph with
  | Some graph =>
      let graphNodes := arrayOrEmpty (graph_nodes graph) in
      let graphEdges := arrayOrEmpty (graph_edges graph) in
      if decide (0 < length graphNodes) then
        m ← maxId parseInt (JArray graphNodes);
        Some {| raw_nodes := JArray graphNodes; raw_edges := JArray graphEdges;
                raw_counter := num_succ m |}
      else
        Some {| raw_nodes := JArray graphNodes; raw_edges := JArray graphEdges;
                raw_counter := Int 1 |}
  | None =>
      Some {| raw_nodes := JArray []; raw_edges := JArray [];
              raw_counter := Int 1 |}
  end.
End GraphLoad.

(** ** The time of the last save ([ControlPanel.tsx]) *)

Section LastSaved.
(** [toLocaleDateString] is the platform's. *)
Variable toLocaleDateString : Z → string.

(** [formatLastSaved]; dates are their [getTime()], [now] is that of
    [new Date()]. *)
Definition formatLastSaved (now : Z) (date : option Z) : string :=
  match date with
  | None => "Never"
  | Some d =>
      let diff := (now - d)%Z in
      let minutes := (diff `div` 60000)%Z in
      if (minutes <? 1)%Z then "Just now"
      else if (minutes <? 60)%Z then pretty minutes +:+ "m ago"
      else
        let hours := (minutes `div` 60)%Z in
        if (hours <? 24)%Z then pretty hours +:+ "h ago"
        else toLocaleDateString d
  end.
End LastSaved.

(** [parseInt] reads back the ids of [nodes] that are the decimal
    numerals of integers up to [2^53] in size. *)
Definition readsIds (parseInt : ParseInt) (nodes : list Node) : Prop :=
  ∀ node z, node ∈ nodes → (Z.abs z ≤ 2 ^ 53)%Z → node_id node = pretty z →
            callParseInt parseInt (Some (JString (node_id node)))
            = ParseNumber (Int z).

(** The id that [onAddNode] hands out after [k] earlier calls from a
    counter on. *)
Definition upcoming (bigToString : Z → string) (counter : Num) (k : nat)
  : string :=
  toString bigToString (Nat.iter k num_succ counter).

(** The [addNode] calls among the operations of a session. *)
Fixpoint additions (ops : list Op) : nat :=
  match ops with
  | [] => 0
  | AddNode _ _ _ :: rest => S (additions rest)
  | _ :: rest => additions rest
  end.

(** A [parseInt] on the numerals of the examples. *)
Definition parseSmall : ParseInt :=
  {| parsePrimitive := λ v,
       match v with
       | Some (JString s) =>
           Int <$> head (filter (λ z, pretty z = s) [1; 2; 3; 4; 5; 6; 7; 8; 9]%Z)
       | _ => None
       end;
     parseObject := λ _, ParseNaN |}.

Definition rowOf (nodes edges : JSON) : DAGGraph :=
  {| graph_id := "g"; graph_project_id := "p"; graph_name := "Graph";
     graph_nodes := nodes; graph_edges := edges;
     graph_layout_config := JNull; graph_validation_status := JNull;
     graph_created_at := ""; graph_updated_at := "" |}.

(** The order of the numbers. *)
Definition num_le (a b : Num) : Prop :=
  match a, b with
  | NegInfinity, _ | _, PosInfinity => True
  | Int x, Int y => (x ≤ y)%Z
  | _, _ => False
  end.

(** The evaluation of [parseInt(n.id) || 0] throws. *)
Definition idThrows (parseInt : ParseInt) (n : JSON) : Prop :=
  n = JNull ∨ callParseInt parseInt (property n "id") = ParseThrows.

(** An empty editor whose counter has come to [2^53]. *)
Definition atLimit : Editor :=
  {| st_nodes := []; st_edges := []; nodeIdCounter := Int (2 ^ 53) |}.
(** * Properties *)

(** ** Correctness of the depth-first search *)

Section DfsCorrect.
Variable adjacencyList : gmap string (list string).
Variable universe : gset string.

Local Abbreviation arrow := (arrow adjacencyList).
Local Abbreviation onCycle := (onCycle adjacencyList).
Local Abbreviation dfsInv := (dfsInv adjacencyList).
Local Abbreviation unvisited := (unvisited universe).
Local Abbreviation outcome := (outcome adjacencyList).
Local Abbreviation cycleFrom := (cycleFrom adjacencyList).

Lemma finished_rtc st x y :
  dfsInv st → finished st x → rtc arrow x y → finished st y.
Proof.
  intros Hinv Hx Hxy. induction Hxy as [|x y z Hxy _ IH]; [done|].
  apply IH. by eapply inv_closed.
Qed.

Lemma finished_no_cycle st x y :
  dfsInv st → finished st x → rtc arrow x y → ¬ onCycle y.
Proof. intros Hinv Hx Hxy. eapply inv_acyclic, finished_rtc; eauto. Qed.

Hypothesis universe_closed : ∀ x y, arrow x y → y ∈ universe.

Lemma forNeighbors_outcome call c fuel :
  (∀ n st, n ∉ visited st → n ∈ universe → dfsInv st →
     (∀ r, r ∈ recStack st → rtc arrow r n) →
     unvisited st ≤ fuel →
     outcome n st (call n st) ∧
     ∀ st', call n st = Some (false, st') → n ∈ visited st') →
  ∀ nbs st,
    (∀ y, y ∈ nbs → arrow c y) → dfsInv st → c ∈ recStack st →
    (∀ r, r ∈ recStack st → rtc arrow r c) →
    unvisited st ≤ fuel →
    outcome c st (forNeighbors call nbs st) ∧
    ∀ st', forNeighbors call nbs st = Some (false, st') →
           ∀ y, y ∈ nbs → finished st' y.
Proof.
  intros Hcall nbs. induction nbs as [|nb rest IH]; intros st Hnbs Hinv Hc Hstack Hfuel.
  { split.
    - exists false, st. by simpl.
    - intros st' _ y Hy. by apply elem_of_nil in Hy. }
  assert (Hnb : arrow c nb) by (apply Hnbs; left).
  assert (Hrest : ∀ y, y ∈ rest → arrow c y) by (intros; apply Hnbs; by right).
  simpl. destruct (decide (nb ∉ visited st)) as [Hfresh|Hseen].
  - destruct (Hcall nb st) as [(b & st1 & Hrun & Hb) Hin]; eauto.
    { intros r Hr. eapply rtc_r; eauto. }
    rewrite Hrun. destruct b.
    + split; [|done]. exists true, st1. split; [done|].
      destruct Hb as (x & Hx & Hcyc). exists x. split; [|done].
      by eapply rtc_l.
    + destruct Hb as (Hrec & Hvis & Hinv1).
      destruct (IH st1) as [(b & st2 & Hrun2 & Hb2) Hfin]; auto.
      { by rewrite Hrec. }
      { by rewrite Hrec. }
      { unfold unvisited in *. etrans; [|exact Hfuel]. apply subseteq_size. set_solver. }
      split.
      * exists b, st2. split; [done|]. destruct b; [done|].
        destruct Hb2 as (Hrec2 & Hvis2 & Hinv2).
        split_and!; [congruence|by etrans|done].
      * intros st' Hst' y Hy. rewrite Hrun2 in Hst'.
        destruct b; [done|]. simplify_eq.
        destruct Hb2 as (Hrec2 & Hvis2 & Hinv2).
        apply elem_of_cons in Hy as [->|Hy]; [|by eapply Hfin].
        split; [apply Hvis2; by eapply Hin|].
        rewrite Hrec2, Hrec. intros Hbad. apply Hfresh.
        by apply (inv_stack Hinv).
  - destruct (decide (nb ∈ recStack st)) as [Hback|Hdone].
    + split; [|done]. exists true, st. split; [done|].
      exists nb. split; [by apply rtc_once|].
      eapply tc_rtc_l; [by apply Hstack|]. by apply tc_once.
    + destruct (IH st) as [Hout Hfin]; auto.
      split; [done|]. intros st' Hst' y Hy.
      apply elem_of_cons in Hy as [->|Hy]; [|by eapply Hfin].
      destruct Hout as (b & st2 & Hrun2 & Hb2). rewrite Hrun2 in Hst'.
      destruct b; [done|]. simplify_eq.
      destruct Hb2 as (Hrec2 & Hvis2 & Hinv2).
      split; [apply Hvis2; by apply dec_stable|by rewrite Hrec2].
Qed.

Lemma unvisited_add n st V' :
  n ∈ universe → n ∉ visited st → {[n]} ∪ visited st ⊆ V' →
  S (size (universe ∖ V')) ≤ unvisited st.
Proof.
  intros Hn Hfresh Hsub. unfold unvisited.
  apply (subset_size (universe ∖ V') (universe ∖ visited st)).
  set_solver.
Qed.

Lemma dfs_outcome fuel :
  ∀ n st, n ∉ visited st → n ∈ universe → unvisited st ≤ fuel → dfsInv st →
    (∀ r, r ∈ recStack st → rtc arrow r n) →
    outcome n st (dfs adjacencyList fuel n st) ∧
    ∀ st', dfs adjacencyList fuel n st = Some (false, st') → finished st' n.
Proof.
  induction fuel as [|fuel IH]; intros n st Hfresh Hn Hfuel Hinv Hstack.
  { pose proof (unvisited_add n st _ Hn Hfresh (reflexivity _)). lia. }
  set (st1 := {| visited := {[n]} ∪ visited st;
                 recStack := {[n]} ∪ recStack st |}).
  assert (Hnotrec : n ∉ recStack st).
  { intros Hbad. by apply Hfresh, (inv_stack Hinv). }
  assert (Hfin1 : ∀ x, finished st1 x ↔ finished st x).
  { intros x. unfold finished, st1. simpl. set_solver. }
  assert (Hinv1 : dfsInv st1).
  { split.
    - simpl. pose proof (inv_stack Hinv). set_solver.
    - intros x y Hx Hxy. apply Hfin1. apply Hfin1 in Hx.
      by eapply inv_closed.
    - intros x Hx. apply Hfin1 in Hx. by eapply inv_acyclic. }
  assert (Hcall : ∀ m st', m ∉ visited st' → m ∈ universe → dfsInv st' →
     (∀ r, r ∈ recStack st' → rtc arrow r m) →
     unvisited st' ≤ fuel →
     outcome m st' (dfs adjacencyList fuel m st') ∧
     ∀ st'', dfs adjacencyList fuel m st' = Some (false, st'') →
             m ∈ visited st'').
  { intros m st' Hm HmU Hinv' Hstack' Hfuel'.
    destruct (IH m st') as [Hout Hfin]; auto.
    split; [done|]. intros st'' Hst''. by apply Hfin. }
  assert (Hfuel1 : unvisited st1 ≤ fuel).
  { pose proof (unvisited_add n st (visited st1) Hn Hfresh (reflexivity _)).
    unfold unvisited in *. lia. }
  assert (Hc1 : n ∈ recStack st1) by (simpl; set_solver).
  assert (Hstack1 : ∀ r, r ∈ recStack st1 → rtc arrow r n).
  { simpl. intros r Hr. apply elem_of_union in Hr as [Hr|Hr]; [|by apply Hstack].
    apply elem_of_singleton in Hr as ->. done. }
  destruct (forNeighbors_outcome (dfs adjacencyList fuel) n fuel Hcall
              (neighbors adjacencyList n) st1)
    as [(b & st2 & Hrun & Hb) Hall]; auto.
  simpl. fold st1. rewrite Hrun. destruct b.
  { split; [|done]. exists true, st2. done. }
  destruct Hb as (Hrec & Hvis & Hinv2).
  set (st3 := {| visited := visited st2; recStack := recStack st2 ∖ {[n]} |}).
  assert (Hrec3 : recStack st3 = recStack st).
  { unfold st3. simpl. rewrite Hrec. simpl. set_solver. }
  assert (Hn3 : finished st3 n).
  { split; [apply Hvis; simpl; set_solver|]. by rewrite Hrec3. }
  assert (Hfin3 : ∀ x, finished st3 x ↔ finished st2 x ∨ x = n).
  { intros x. unfold finished. rewrite Hrec3. unfold st3. simpl.
    rewrite Hrec. simpl. split.
    - intros [Hx Hxr]. destruct (decide (x = n)); [by right|left].
      split; [done|]. set_solver.
    - intros [[Hx Hxr]| ->]; [split; [done|set_solver]|].
      split; [apply Hvis; simpl; set_solver|done]. }
  assert (Hn2 : ¬ finished st2 n).
  { intros [_ Hbad]. apply Hbad. rewrite Hrec. simpl. set_solver. }
  split; [|intros st' Hst'; by simplify_eq].
  exists false, st3. split; [done|]. split_and!; [done| |].
  { unfold st3. simpl. etrans; [|exact Hvis]. simpl. set_solver. }
  split.
  - rewrite Hrec3. unfold st3. simpl. etrans; [apply (inv_stack Hinv)|].
    etrans; [|exact Hvis]. simpl. set_solver.
  - intros x y Hx Hxy. apply Hfin3. left. apply Hfin3 in Hx as [Hx| ->].
    + by eapply inv_closed.
    + by eapply Hall.
  - intros x Hx Hcyc. apply Hfin3 in Hx as [Hx| ->].
    + by eapply inv_acyclic.
    + assert (∃ y, arrow n y ∧ rtc arrow y n) as (y & Hny & Hyn).
      { inversion Hcyc; subst; eauto using tc_rtc. }
      apply Hn2. eapply finished_rtc; [done| |exact Hyn]. by eapply Hall.
Qed.

Lemma forNodes_outcome fuel nodes :
  size universe ≤ fuel →
  ∀ st, (∀ node, node ∈ nodes → node_id node ∈ universe) →
    dfsInv st → recStack st = ∅ →
    ∃ b, forNodes adjacencyList fuel nodes st = Some b ∧
      if b then cycleFrom nodes
      else ∃ st', dfsInv st' ∧ recStack st' = ∅ ∧ visited st ⊆ visited st' ∧
                  ∀ node, node ∈ nodes → node_id node ∈ visited st'.
Proof.
  intros Hfuel. induction nodes as [|node rest IH]; intros st HU Hinv Hrec.
  { exists false. split; [done|]. exists st. split_and!; try done.
    intros node Hnode. by apply elem_of_nil in Hnode. }
  assert (HUrest : ∀ n, n ∈ rest → node_id n ∈ universe).
  { intros n Hn. apply HU. by right. }
  assert (Hlift : cycleFrom rest → cycleFrom (node :: rest)).
  { intros (n & x & Hn & Hx). exists n, x. split; [by right|done]. }
  simpl. destruct (decide (node_id node ∉ visited st)) as [Hfresh|Hseen].
  - destruct (dfs_outcome fuel (node_id node) st)
      as [(b & st1 & Hrun & Hb) Hfin]; auto.
    { apply HU. by left. }
    { unfold unvisited. etrans; [|exact Hfuel]. apply subseteq_size. set_solver. }
    { intros r Hr. rewrite Hrec in Hr. set_solver. }
    rewrite Hrun. destruct b.
    + exists true. split; [done|]. destruct Hb as (x & Hx & Hcyc).
      exists node, x. split; [by left|done].
    + destruct Hb as (Hrec1 & Hvis1 & Hinv1).
      destruct (IH st1) as (b & Hrun2 & Hb2); auto; [congruence|].
      exists b. split; [done|]. destruct b; [by apply Hlift|].
      destruct Hb2 as (st2 & Hinv2 & Hrec2 & Hvis2 & Hall).
      exists st2. split_and!; [done|done|by etrans|].
      intros n Hn. apply elem_of_cons in Hn as [->|Hn]; [|by apply Hall].
      apply Hvis2. by apply (Hfin st1).
  - destruct (IH st) as (b & Hrun2 & Hb2); auto.
    exists b. split; [done|]. destruct b; [by apply Hlift|].
    destruct Hb2 as (st2 & Hinv2 & Hrec2 & Hvis2 & Hall).
    exists st2. split_and!; [done|done|done|].
    intros n Hn. apply elem_of_cons in Hn as [->|Hn]; [|by apply Hall].
    apply Hvis2. by apply dec_stable.
Qed.

Lemma dfsInv_init : dfsInv dfsInit.
Proof.
  split; [done| |]; intros x; unfold finished; simpl; set_solver.
Qed.

(** The search from every node answers, and it answers [true] exactly
    when a cycle can be reached from one of the nodes. *)
Lemma forNodes_correct fuel nodes :
  size universe ≤ fuel →
  (∀ node, node ∈ nodes → node_id node ∈ universe) →
  ∃ b, forNodes adjacencyList fuel nodes dfsInit = Some b ∧
       (b = true ↔ cycleFrom nodes).
Proof.
  intros Hfuel HU.
  destruct (forNodes_outcome fuel nodes Hfuel dfsInit) as (b & Hrun & Hb);
    auto using dfsInv_init.
  exists b. split; [done|]. destruct b; [done|].
  split; [done|]. intros (node & x & Hnode & Hx & Hcyc). exfalso.
  destruct Hb as (st' & Hinv & Hrec & _ & Hall).
  eapply (finished_no_cycle st' (node_id node) x); eauto.
  split; [by apply Hall|]. rewrite Hrec. set_solver.
Qed.
End DfsCorrect.

(** ** The adjacency list and the edge collection *)

Lemma neighbors_pushConnection adj s t x :
  neighbors (pushConnection adj s t) x
  = if decide (s = x) then neighbors adj x ++ [t] else neighbors adj x.
Proof.
  unfold pushConnection, neighbors at 1. rewrite lookup_insert.
  case_decide; by subst.
Qed.

Lemma neighbors_edges edges : ∀ adj x,
  neighbors (foldl (λ adj edge,
               pushConnection adj (edge_source edge) (edge_target edge))
             adj edges) x
  = neighbors adj x
    ++ (edge_target <$> filter (λ edge, edge_source edge = x) edges).
Proof.
  induction edges as [|edge edges IH]; intros adj x; simpl.
  { by rewrite app_nil_r. }
  rewrite IH, neighbors_pushConnection, filter_cons.
  repeat case_decide; try done; simpl; by rewrite <- ?app_assoc.
Qed.

Lemma neighbors_nodes nodes : ∀ adj x,
  neighbors adj x = [] →
  neighbors (foldl (λ adj node, <[node_id node := []]> adj) adj nodes) x = [].
Proof.
  induction nodes as [|node nodes IH]; intros adj x Hx; simpl; [done|].
  apply IH. unfold neighbors. rewrite lookup_insert. by case_decide.
Qed.

Lemma neighbors_buildAdjacencyList nodes edges x :
  neighbors (buildAdjacencyList nodes edges) x
  = edge_target <$> filter (λ edge, edge_source edge = x) edges.
Proof.
  unfold buildAdjacencyList. rewrite neighbors_edges.
  by rewrite neighbors_nodes.
Qed.

Lemma arrow_buildAdjacencyList nodes edges x y :
  arrow (buildAdjacencyList nodes edges) x y ↔ edgeRel edges x y.
Proof.
  unfold arrow, edgeRel. rewrite neighbors_buildAdjacencyList.
  rewrite list_elem_of_fmap. setoid_rewrite list_elem_of_filter.
  naive_solver.
Qed.

Lemma arrow_pushConnection nodes edges s t x y :
  arrow (pushConnection (buildAdjacencyList nodes edges) s t) x y
  ↔ edgeRel (edges ++ [mkEdge s t]) x y.
Proof.
  unfold arrow, edgeRel. rewrite neighbors_pushConnection.
  pose proof (arrow_buildAdjacencyList nodes edges x y) as Hold.
  unfold arrow, edgeRel in Hold. split.
  - intros Hy.
    assert (y ∈ neighbors (buildAdjacencyList nodes edges) x ∨ (s = x ∧ y = t))
      as [Hy'|[<- ->]].
    { case_decide; [|by left].
      apply elem_of_app in Hy as [?|Hy]; [by left|right].
      by apply list_elem_of_singleton in Hy. }
    + apply Hold in Hy' as (e & ? & ? & ?). exists e.
      split; [apply elem_of_app; by left|done].
    + exists (mkEdge s t). split; [|done].
      apply elem_of_app. right. by apply list_elem_of_singleton.
  - intros (e & He & Hs & Ht). apply elem_of_app in He as [He|He].
    + assert (y ∈ neighbors (buildAdjacencyList nodes edges) x) by (apply Hold; eauto).
      case_decide; [apply elem_of_app; by left|done].
    + apply list_elem_of_singleton in He as ->. simpl in *. subst.
      rewrite decide_True by done. apply elem_of_app. right.
      by apply list_elem_of_singleton.
Qed.

Section Subrelation.
Context {A : Type} (R1 R2 : relation A).
Hypothesis sub : ∀ x y, R1 x y → R2 x y.

Lemma tc_subrel x y : tc R1 x y → tc R2 x y.
Proof.
  induction 1 as [x y H|x y z H _ IH]; [by apply tc_once, sub|].
  eapply tc_l; [by apply sub|done].
Qed.
End Subrelation.

Lemma cycleFrom_iff adj nodes (R : relation string) :
  (∀ x y, arrow adj x y ↔ R x y) →
  cycleFrom adj nodes
  ↔ ∃ node x, node ∈ nodes ∧ rtc R (node_id node) x ∧ tc R x x.
Proof.
  intros HR. unfold cycleFrom, onCycle. split.
  - intros (node & x & Hnode & Hx & Hcyc). exists node, x. split_and!; [done| |].
    + eapply rtc_subrel; [|exact Hx]. intros ??. by apply HR.
    + eapply tc_subrel; [|exact Hcyc]. intros ??. by apply HR.
  - intros (node & x & Hnode & Hx & Hcyc). exists node, x. split_and!; [done| |].
    + eapply rtc_subrel; [|exact Hx]. intros ??. by apply HR.
    + eapply tc_subrel; [|exact Hcyc]. intros ??. by apply HR.
Qed.

(** ** The search answers *)

Lemma size_list_to_set_le (l : list string) :
  size (list_to_set l : gset string) ≤ length l.
Proof.
  induction l as [|x l IH]; [by rewrite list_to_set_nil, size_empty|].
  rewrite list_to_set_cons, size_union_alt, size_singleton. simpl.
  assert (size (list_to_set l ∖ {[x]} : gset string)
          ≤ size (list_to_set l : gset string)); [|lia].
  apply subseteq_size. set_solver.
Qed.

Lemma searchUniverse_size nodes edges extra :
  size (searchUniverse nodes edges extra)
  ≤ length nodes + length edges + length extra.
Proof.
  unfold searchUniverse. etrans; [apply size_list_to_set_le|].
  rewrite !length_app, !length_fmap. lia.
Qed.

Lemma searchCycle_correct nodes edges :
  ∃ b, searchCycle nodes edges = Some b ∧ (b = true ↔ reachableCycle nodes edges).
Proof.
  destruct (forNodes_correct (buildAdjacencyList nodes edges)
              (searchUniverse nodes edges []) ) with
    (fuel := searchFuel nodes edges) (nodes := nodes) as (b & Hrun & Hb).
  - intros x y Hxy. apply arrow_buildAdjacencyList in Hxy as (e & He & _ & <-).
    unfold searchUniverse. rewrite elem_of_list_to_set, !elem_of_app.
    right; left. by apply list_elem_of_fmap_2.
  - pose proof (searchUniverse_size nodes edges []). unfold searchFuel.
    simpl in *. lia.
  - intros node Hnode. unfold searchUniverse.
    rewrite elem_of_list_to_set, !elem_of_app. left.
    by apply list_elem_of_fmap_2.
  - exists b. split; [done|]. rewrite Hb. apply cycleFrom_iff.
    apply arrow_buildAdjacencyList.
Qed.

Lemma searchNewCycle_correct nodes edges s t :
  ∃ b, searchNewCycle nodes edges s t = Some b
       ∧ (b = true ↔ reachableCycle nodes (edges ++ [mkEdge s t])).
Proof.
  destruct (forNodes_correct
              (pushConnection (buildAdjacencyList nodes edges) s t)
              (searchUniverse nodes edges [t])) with
    (fuel := S (searchFuel nodes edges)) (nodes := nodes) as (b & Hrun & Hb).
  - intros x y Hxy. apply arrow_pushConnection in Hxy as (e & He & _ & <-).
    unfold searchUniverse. rewrite elem_of_list_to_set, !elem_of_app.
    apply elem_of_app in He as [He|He].
    + right; left. by apply list_elem_of_fmap_2.
    + apply list_elem_of_singleton in He as ->. right; right. simpl. by left.
  - pose proof (searchUniverse_size nodes edges [t]). unfold searchFuel.
    simpl in *. lia.
  - intros node Hnode. unfold searchUniverse.
    rewrite elem_of_list_to_set, !elem_of_app. left.
    by apply list_elem_of_fmap_2.
  - exists b. split; [done|]. rewrite Hb. apply cycleFrom_iff.
    apply arrow_pushConnection.
Qed.

(** [hasCycle] returns: the fuel of the embedding is enough. *)
Lemma hasCycle_answers nodes edges :
  searchCycle nodes edges = Some (hasCycle nodes edges).
Proof.
  unfold hasCycle. by destruct (searchCycle_correct nodes edges) as (b & -> & _).
Qed.

Lemma hasCycle_true nodes edges :
  hasCycle nodes edges = true ↔ reachableCycle nodes edges.
Proof.
  unfold hasCycle. by destruct (searchCycle_correct nodes edges) as (b & -> & Hb).
Qed.

(** [wouldCreateCycle] returns: the fuel of the embedding is enough. *)
Lemma wouldCreateCycle_answers nodes edges s t :
  searchNewCycle nodes edges s t = Some (wouldCreateCycle nodes edges s t).
Proof.
  unfold wouldCreateCycle.
  by destruct (searchNewCycle_correct nodes edges s t) as (b & -> & _).
Qed.

Lemma wouldCreateCycle_true nodes edges s t :
  wouldCreateCycle nodes edges s t = true
  ↔ reachableCycle nodes (edges ++ [mkEdge s t]).
Proof.
  unfold wouldCreateCycle.
  by destruct (searchNewCycle_correct nodes edges s t) as (b & -> & Hb).
Qed.

(** ** Validation *)

Lemma reachableCycle_directed nodes edges :
  reachableCycle nodes edges → hasDirectedCycle edges.
Proof. intros (node & x & _ & _ & Hcyc). by exists x. Qed.

Lemma tc_source (edges : list Edge) x y :
  tc (edgeRel edges) x y → ∃ edge, edge ∈ edges ∧ edge_source edge = x.
Proof. intros H. destruct H as [x y (e & ? & ? & ?)|x y z (e & ? & ? & ?) _]; eauto. Qed.

Lemma directed_reachableCycle nodes edges :
  noDangling nodes edges → hasDirectedCycle edges → reachableCycle nodes edges.
Proof.
  intros Hwf (x & Hcyc).
  destruct (tc_source _ _ _ Hcyc) as (e & He & <-).
  destruct (Hwf e He) as [Hsrc _].
  apply list_elem_of_fmap in Hsrc as (node & Hid & Hnode).
  exists node, (edge_source e). rewrite <- Hid. done.
Qed.

Lemma cycleError_errors nodes edges :
  cycleError ∈ errors (validate nodes edges) ↔ hasCycle nodes edges = true.
Proof.
  unfold validate. simpl. destruct (hasCycle nodes edges); case_decide; simpl.
  - split; [done|]. intros _. by left.
  - split; [done|]. intros _. by left.
  - split; [|done]. intros Hin. apply list_elem_of_singleton in Hin. discriminate.
  - split; [|done]. intros Hin. by apply elem_of_nil in Hin.
Qed.

Lemma cycleError_reachableCycle nodes edges :
  cycleError ∈ errors (validate nodes edges) ↔ reachableCycle nodes edges.
Proof. by rewrite cycleError_errors, hasCycle_true. Qed.

Lemma errors_isValid nodes edges :
  isValid (validate nodes edges) = true ↔ errors (validate nodes edges) = [].
Proof.
  unfold validate. simpl. rewrite bool_decide_eq_true. apply length_zero_iff_nil.
Qed.

(** C2.  For a graph whose edges all have their two ends in the node
    collection, the report has the cycle error exactly when the graph has
    a directed cycle, and then the graph is not valid. *)
Theorem validate_cycle_error nodes edges :
  noDangling nodes edges →
  (cycleError ∈ errors (validate nodes edges) ↔ hasDirectedCycle edges)
  ∧ (hasDirectedCycle edges → isValid (validate nodes edges) = false).
Proof.
  intros Hwf.
  assert (Hiff : cycleError ∈ errors (validate nodes edges) ↔ hasDirectedCycle edges).
  { rewrite cycleError_reachableCycle. split;
      [apply reachableCycle_directed|by apply directed_reachableCycle]. }
  split; [done|]. intros Hcyc. apply Hiff in Hcyc.
  apply not_true_is_false. rewrite errors_isValid. intros Hnil.
  rewrite Hnil in Hcyc. by apply elem_of_nil in Hcyc.
Qed.

Lemma noDangling_Forall nodes edges :
  Forall (λ edge, present nodes (edge_source edge)
                  ∧ present nodes (edge_target edge)) edges →
  noDangling nodes edges.
Proof. intros H edge Hedge. by eapply Forall_forall in H. Qed.

(** The scenario of the specification: nodes 1 and 2, edges 1→2 and 2→1. *)
Lemma validate_cycle_error_witness :
  noDangling [mkNode "1"; mkNode "2"] [mkEdge "1" "2"; mkEdge "2" "1"]
  ∧ cycleError ∈ errors (validate [mkNode "1"; mkNode "2"]
                                   [mkEdge "1" "2"; mkEdge "2" "1"])
  ∧ isValid (validate [mkNode "1"; mkNode "2"]
                      [mkEdge "1" "2"; mkEdge "2" "1"]) = false.
Proof.
  assert (Hwf : noDangling [mkNode "1"; mkNode "2"]
                           [mkEdge "1" "2"; mkEdge "2" "1"]).
  { apply noDangling_Forall. unfold present. repeat constructor. }
  destruct (validate_cycle_error _ _ Hwf) as [Hiff Hvalid].
  assert (Hcyc : hasDirectedCycle [mkEdge "1" "2"; mkEdge "2" "1"]).
  { exists "1". eapply tc_l; [|apply tc_once].
    - exists (mkEdge "1" "2"). split; [by left|done].
    - exists (mkEdge "2" "1"). split; [right; by left|done]. }
  split; [done|]. split; [by apply Hiff|by apply Hvalid].
Defined.

Lemma selfReferential_nil edges :
  ¬ 0 < length (filter (λ edge, edge_source edge = edge_target edge) edges)
  ↔ ∀ edge, edge ∈ edges → edge_source edge ≠ edge_target edge.
Proof.
  split.
  - intros Hlen edge Hedge Hself.
    assert (Hin : edge ∈ filter (λ edge, edge_source edge = edge_target edge) edges)
      by (by apply list_elem_of_filter).
    destruct (filter _ edges); [by apply elem_of_nil in Hin|simpl in Hlen; lia].
  - intros Hall Hlen.
    destruct (filter _ edges) as [|edge rest] eqn:Hfilter; [simpl in Hlen; lia|].
    assert (Hin : edge ∈ filter (λ edge, edge_source edge = edge_target edge) edges)
      by (rewrite Hfilter; by left).
    apply list_elem_of_filter in Hin as [Hself Hedge]. by apply (Hall edge).
Qed.

(** The graph is valid exactly when no cycle can be reached from a node
    of the node collection and no edge goes from an id to itself. *)
Lemma isValid_iff nodes edges :
  isValid (validate nodes edges) = true
  ↔ ¬ reachableCycle nodes edges
    ∧ ∀ edge, edge ∈ edges → edge_source edge ≠ edge_target edge.
Proof.
  rewrite <- hasCycle_true, <- selfReferential_nil, errors_isValid.
  unfold validate. simpl. destruct (hasCycle nodes edges); case_decide; simpl.
  - split; [done|]. by intros [? _].
  - split; [done|]. by intros [? _].
  - split; [done|]. intros [_ ?]. done.
  - split; [|done]. intros _. split; [done|lia].
Qed.

(** C10.  Nothing in the validation checks that the ends of an edge
    exist.  The report has the cycle error exactly when a cycle can be
    reached from a node of the node collection, since the searches start
    there only, and the graph is valid exactly when there is no such cycle
    and no edge from an id to itself.  So a graph whose edges have both
    ends absent and form a cycle is reported valid, with no error. *)
Theorem validate_ignores_dangling :
  (∀ nodes edges,
     cycleError ∈ errors (validate nodes edges) ↔ reachableCycle nodes edges)
  ∧ (∀ nodes edges,
       isValid (validate nodes edges) = true
       ↔ ¬ reachableCycle nodes edges
         ∧ ∀ edge, edge ∈ edges → edge_source edge ≠ edge_target edge)
  ∧ ∃ nodes edges,
      (∀ edge, edge ∈ edges → ¬ present nodes (edge_source edge)
                               ∧ ¬ present nodes (edge_target edge))
      ∧ hasDirectedCycle edges
      ∧ isValid (validate nodes edges) = true
      ∧ errors (validate nodes edges) = [].
Proof.
  split; [apply cycleError_reachableCycle|]. split; [apply isValid_iff|].
  exists [mkNode "1"; mkNode "2"], [mkEdge "3" "4"; mkEdge "4" "3"].
  split_and!.
  - intros edge Hedge.
    apply elem_of_cons in Hedge as [->|Hedge];
      [|apply list_elem_of_singleton in Hedge as ->];
      unfold present; simpl; split; compute_done.
  - exists "3". eapply tc_l; [|apply tc_once].
    + exists (mkEdge "3" "4"). split; [by left|done].
    + exists (mkEdge "4" "3"). split; [right; by left|done].
  - by vm_compute.
  - by vm_compute.
Qed.

(** ** The scenarios of the specification about the report *)

(** The empty graph: one warning, no error, valid. *)
Example validate_empty :
  validate [] []
  = {| isValid := true; errors := []; warnings := [minNodesWarning] |}.
Proof. by vm_compute. Qed.

(** Two nodes and no edge: the warning about connections, and no error. *)
Example validate_no_edges :
  validate [mkNode "1"; mkNode "2"] []
  = {| isValid := true; errors := []; warnings := [noConnectionsWarning] |}.
Proof. by vm_compute. Qed.

(** An edge from a node to itself: both errors, in the order of the
    checks. *)
Example validate_self_loop :
  validate [mkNode "1"; mkNode "2"] [mkEdge "1" "2"; mkEdge "2" "2"]
  = {| isValid := false; errors := [cycleError; selfReferenceError];
       warnings := [] |}.
Proof. by vm_compute. Qed.

(** Three nodes, one of them apart: the warning about unconnected nodes. *)
Example validate_disconnected :
  validate [mkNode "1"; mkNode "2"; mkNode "3"] [mkEdge "1" "2"]
  = {| isValid := true; errors := []; warnings := [disconnectedWarning] |}.
Proof. by vm_compute. Qed.

(** ** Connecting two nodes *)

Lemma tc_inv_l {A} (R : relation A) x z :
  tc R x z → ∃ y, R x y ∧ rtc R y z.
Proof. intros H. destruct H; eauto using rtc_refl, tc_rtc. Qed.

Lemma edgeRel_app edges extra x y :
  edgeRel (edges ++ extra) x y ↔ edgeRel edges x y ∨ edgeRel extra x y.
Proof. unfold edgeRel. setoid_rewrite elem_of_app. naive_solver. Qed.

Lemma edgeRel_singleton s t x y :
  edgeRel [mkEdge s t] x y ↔ x = s ∧ y = t.
Proof.
  unfold edgeRel. setoid_rewrite list_elem_of_singleton. split.
  - by intros (e & -> & <- & <-).
  - intros [-> ->]. by exists (mkEdge s t).
Qed.

(** With no dangling edge, a cycle of the graph with one more edge from
    [s] to [t ≠ s] goes through a node of the node collection. *)
Lemma tc_new_edge edges s t x y :
  tc (edgeRel (edges ++ [mkEdge s t])) x y →
  tc (edgeRel edges) x y
  ∨ (rtc (edgeRel edges) x s ∧ rtc (edgeRel (edges ++ [mkEdge s t])) t y).
Proof.
  induction 1 as [x y Hstep|x y z Hstep Hrest IH].
  - apply edgeRel_app in Hstep as [Hold|Hnew]; [left; by apply tc_once|].
    apply edgeRel_singleton in Hnew as [-> ->]. by right.
  - apply edgeRel_app in Hstep as [Hold|Hnew].
    + destruct IH as [IH|[IHs IHt]]; [left; by eapply tc_l|right].
      split; [by eapply rtc_l|done].
    + apply edgeRel_singleton in Hnew as [-> ->]. right.
      split; [done|by apply tc_rtc].
Qed.

Lemma edgeRel_new_edge edges s t :
  edgeRel (edges ++ [mkEdge s t]) s t.
Proof. apply edgeRel_app. right. by apply edgeRel_singleton. Qed.

Lemma rtc_old_edges edges s t x y :
  rtc (edgeRel edges) x y → rtc (edgeRel (edges ++ [mkEdge s t])) x y.
Proof.
  apply rtc_subrel. intros a b Hab. apply edgeRel_app. by left.
Qed.

(** An edge that closes no cycle through a node of the collection, and
    has one of its ends in the collection, closes no cycle at all. *)
Lemma new_edge_acyclic nodes edges s t :
  ¬ hasDirectedCycle edges →
  present nodes s ∨ present nodes t →
  ¬ reachableCycle nodes (edges ++ [mkEdge s t]) →
  ¬ hasDirectedCycle (edges ++ [mkEdge s t]).
Proof.
  intros Hacyclic Hpresent Hno (x & Hcyc).
  destruct (tc_new_edge _ _ _ _ _ Hcyc) as [Hold|[Hxs Htx]].
  { apply Hacyclic. by exists x. }
  apply Hno.
  assert (Hs : tc (edgeRel (edges ++ [mkEdge s t])) s s).
  { eapply tc_rtc_r; [apply tc_once, edgeRel_new_edge|].
    etrans; [exact Htx|]. by apply rtc_old_edges. }
  destruct Hpresent as [Hp|Hp];
    apply list_elem_of_fmap in Hp as (node & Hid & Hnode).
  - exists node, s. rewrite <- Hid. done.
  - exists node, t. rewrite <- Hid.
    split; [done|]. split; [done|].
    eapply tc_rtc_l; [|apply tc_once, edgeRel_new_edge].
    etrans; [exact Htx|]. by apply rtc_old_edges.
Qed.

Lemma reachableCycle_more nodes edges nodes' edges' :
  (∀ node, node ∈ nodes → present nodes' (node_id node)) →
  (∀ x y, edgeRel edges x y → edgeRel edges' x y) →
  reachableCycle nodes edges → reachableCycle nodes' edges'.
Proof.
  intros Hnodes Hedges (node & x & Hnode & Hpath & Hcyc).
  apply Hnodes, list_elem_of_fmap in Hnode as (node' & Hid & Hnode').
  exists node', x. rewrite <- Hid. split; [done|]. split.
  - by eapply rtc_subrel.
  - by eapply tc_subrel.
Qed.

Lemma onConnect_cases params ed :
  conn_source params ≠ conn_target params →
  (accepted params ed
   ∧ ¬ reachableCycle (st_nodes ed)
         (st_edges ed ++ [mkEdge (conn_source params) (conn_target params)]))
  ∨ (rejected params ed
     ∧ reachableCycle (st_nodes ed)
         (st_edges ed ++ [mkEdge (conn_source params) (conn_target params)])).
Proof.
  intros Hne. unfold accepted, rejected, onConnect, isValidConnection, addEdge.
  rewrite decide_False by done.
  destruct (wouldCreateCycle _ _ _ _) eqn:Hw; simpl.
  - right. split; [done|]. by apply wouldCreateCycle_true.
  - left. split; [done|]. rewrite <- wouldCreateCycle_true, Hw. done.
Qed.

(** C1, amended.  In a graph in which a directed cycle, if there is one,
    can be reached from a node (every graph without directed cycle is
    one, and every graph whose edges all have their two ends in the node
    collection), connecting two ids of which one at least is the id of a
    node succeeds, appending the edge, exactly when the graph with the
    edge added has no directed cycle; otherwise the editor is left as it
    was and a cycle is signalled. *)
Theorem onConnect_iff_acyclic params ed :
  cyclesReachable (st_nodes ed) (st_edges ed) →
  present (st_nodes ed) (conn_source params)
  ∨ present (st_nodes ed) (conn_target params) →
  (accepted params ed ↔ ¬ createsCycle params ed)
  ∧ (rejected params ed ↔ createsCycle params ed).
Proof.
  intros Hreach Hpresent. unfold createsCycle.
  destruct (decide (conn_source params = conn_target params)) as [Heq|Hne].
  { assert (Hrej : rejected params ed).
    { unfold rejected, onConnect, isValidConnection. by rewrite decide_True. }
    assert (Hyes : hasDirectedCycle
              (st_edges ed
               ++ [mkEdge (conn_source params) (conn_target params)])).
    { exists (conn_source params). apply tc_once. rewrite Heq.
      apply edgeRel_new_edge. }
    split; split; try done.
    intros Hacc. unfold accepted, rejected in *. congruence. }
  destruct (onConnect_cases params ed Hne) as [[Hacc Hno]|[Hrej Hyes]].
  - assert (Hno' : ¬ hasDirectedCycle
             (st_edges ed ++ [mkEdge (conn_source params) (conn_target params)])).
    { apply (new_edge_acyclic (st_nodes ed)); [|done..].
      intros Hcyc. apply Hno. apply Hreach in Hcyc. revert Hcyc.
      apply reachableCycle_more.
      - intros node Hnode. by apply list_elem_of_fmap_2.
      - intros x y Hxy. apply edgeRel_app. by left. }
    split; split; try done.
    intros Hrej. unfold accepted, rejected in *. congruence.
  - assert (Hyes' : hasDirectedCycle
             (st_edges ed ++ [mkEdge (conn_source params) (conn_target params)])).
    { by eapply reachableCycle_directed. }
    split; split; try done.
    intros Hacc. unfold accepted, rejected in *. congruence.
Qed.

(** The scenario of the specification: in the chain, connecting 3 to 1 is
    rejected and the two edges stay. *)
Lemma onConnect_iff_acyclic_witness :
  cyclesReachable (st_nodes chain123) (st_edges chain123)
  ∧ (present (st_nodes chain123) "3" ∨ present (st_nodes chain123) "1")
  ∧ onConnect {| conn_source := "3"; conn_target := "1" |} chain123
    = (chain123, Some cycleToast)
  ∧ length (st_edges
      (onConnect {| conn_source := "3"; conn_target := "1" |} chain123).1) = 2.
Proof.
  assert (Hreach : cyclesReachable (st_nodes chain123) (st_edges chain123)).
  { unfold cyclesReachable. apply directed_reachableCycle, noDangling_Forall.
    unfold present. repeat constructor. }
  assert (Hpresent : present (st_nodes chain123) "3"
                     ∨ present (st_nodes chain123) "1").
  { left. unfold present. simpl. set_solver. }
  destruct (onConnect_iff_acyclic {| conn_source := "3"; conn_target := "1" |}
              chain123 Hreach Hpresent) as [_ Hrej].
  assert (Hcyc : createsCycle {| conn_source := "3"; conn_target := "1" |} chain123).
  { exists "1". eapply tc_l; [|eapply tc_l; [|apply tc_once]].
    - exists (mkEdge "1" "2"). split; [by left|done].
    - exists (mkEdge "2" "3"). split; [right; by left|done].
    - exists (mkEdge "3" "1"). split; [right; right; by left|done]. }
  apply Hrej in Hcyc. unfold rejected in Hcyc.
  split; [done|]. split; [done|]. split; [done|]. by rewrite Hcyc.
Defined.

(** C1 as stated, for every graph, fails.  With nodes 1 and 2 and, left
    behind by deleted nodes, the edges 3→4 and 4→3, no search gets to 3
    or 4: connecting the nodes 1 and 2 succeeds although the graph with
    the new edge has the directed cycle 3→4→3. *)
Lemma onConnect_beside_dangling_cycle :
  present (st_nodes danglingCycle) "1"
  ∧ present (st_nodes danglingCycle) "2"
  ∧ "1" ≠ "2"
  ∧ accepted {| conn_source := "1"; conn_target := "2" |} danglingCycle
  ∧ createsCycle {| conn_source := "1"; conn_target := "2" |} danglingCycle.
Proof.
  split; [unfold present; simpl; set_solver|].
  split; [unfold present; simpl; set_solver|].
  split; [done|]. split; [by vm_compute|].
  exists "3". eapply tc_l; [|apply tc_once].
  - exists (mkEdge "3" "4"). split; [by left|done].
  - exists (mkEdge "4" "3"). split; [right; by left|done].
Qed.

(** The search, given the edge from [u] to [u], answers [true] when [u]
    can be reached from a node of the node collection. *)
Lemma wouldCreateCycle_self_reachable nodes edges u :
  (∃ node, node ∈ nodes ∧ rtc (edgeRel edges) (node_id node) u) →
  wouldCreateCycle nodes edges u u = true.
Proof.
  intros (node & Hnode & Hreach). apply wouldCreateCycle_true.
  exists node, u. split; [done|]. split.
  - eapply rtc_subrel; [|exact Hreach]. intros x y Hxy.
    apply edgeRel_app. by left.
  - apply tc_once, edgeRel_new_edge.
Qed.

(** C5.  For every graph and every id [u] of a node of the graph, the
    search answers [true] for the edge from [u] to [u]; and a connection
    from an id to itself is invalid whatever the graph and the id, by a
    check that comes before the search. *)
Theorem self_loop_is_cycle nodes edges u :
  present nodes u →
  wouldCreateCycle nodes edges u u = true
  ∧ isValidConnection nodes edges {| conn_source := u; conn_target := u |}
    = false.
Proof.
  intros Hpresent. split.
  - apply wouldCreateCycle_self_reachable.
    apply list_elem_of_fmap in Hpresent as (node & -> & Hnode).
    by exists node.
  - unfold isValidConnection. simpl. by rewrite decide_True.
Qed.

Lemma self_loop_is_cycle_witness :
  present (st_nodes chain123) "2"
  ∧ wouldCreateCycle (st_nodes chain123) (st_edges chain123) "2" "2" = true.
Proof.
  assert (Hpresent : present (st_nodes chain123) "2").
  { unfold present. simpl. set_solver. }
  split; [done|].
  by apply (self_loop_is_cycle (st_nodes chain123) (st_edges chain123) "2").
Defined.

(** ** Deleting the selection *)

Lemma filter_none_all {A} (P : A → Prop) `{∀ x, Decision (P x)} (l : list A) :
  ¬ 0 < length (filter P l) → filter (λ x, ¬ P x) l = l.
Proof.
  induction l as [|x l IH]; [done|]. rewrite !filter_cons.
  destruct (decide (P x)); simpl; [lia|]. intros Hlen.
  rewrite decide_True by done. f_equal. by apply IH.
Qed.

Lemma handleKeyDown_filters ed :
  st_nodes (handleKeyDown ed) = filter (λ node, ¬ node_selected node) (st_nodes ed)
  ∧ st_edges (handleKeyDown ed) = filter (λ edge, ¬ edge_selected edge) (st_edges ed)
  ∧ nodeIdCounter (handleKeyDown ed) = nodeIdCounter ed.
Proof.
  unfold handleKeyDown. case_decide as Hsel; [done|].
  split_and!; [| |done].
  - symmetry. apply (filter_none_all (λ node, node_selected node)). tauto.
  - symmetry. apply (filter_none_all (λ edge, edge_selected edge)). tauto.
Qed.

(** C3, amended.  The key handler removes the selected nodes and the
    selected edges, both in the one handler, and nothing else.  When the
    graph had no dangling edge and every edge at a selected node is
    selected too, no edge of the result refers to a missing node. *)
Theorem handleKeyDown_no_dangling ed :
  (st_nodes (handleKeyDown ed)
     = filter (λ node, ¬ node_selected node) (st_nodes ed)
   ∧ st_edges (handleKeyDown ed)
     = filter (λ edge, ¬ edge_selected edge) (st_edges ed))
  ∧ (noDangling (st_nodes ed) (st_edges ed) → incidentSelected ed →
     noDangling (st_nodes (handleKeyDown ed)) (st_edges (handleKeyDown ed))).
Proof.
  destruct (handleKeyDown_filters ed) as (Hn & He & _).
  split; [done|]. intros Hwf Hinc edge. rewrite Hn, He.
  rewrite list_elem_of_filter. intros [Hunsel Hedge].
  assert (Hkeep : ∀ i, present (st_nodes ed) i →
            edge_source edge = i ∨ edge_target edge = i →
            present (filter (λ node, ¬ node_selected node) (st_nodes ed)) i).
  { intros i Hi Hend. apply list_elem_of_fmap in Hi as (node & -> & Hnode).
    apply list_elem_of_fmap_2, list_elem_of_filter. split; [|done].
    intros Hsel. apply Hunsel. by eapply Hinc. }
  destruct (Hwf edge Hedge) as [Hs Ht]. split; apply Hkeep; auto.
Qed.

Lemma handleKeyDown_no_dangling_witness :
  noDangling (st_nodes (select ["1"] ["reactflow__edge-1-2"] pair12))
             (st_edges (select ["1"] ["reactflow__edge-1-2"] pair12))
  ∧ incidentSelected (select ["1"] ["reactflow__edge-1-2"] pair12)
  ∧ noDangling
      (st_nodes (deleteSelection ["1"] ["reactflow__edge-1-2"] pair12))
      (st_edges (deleteSelection ["1"] ["reactflow__edge-1-2"] pair12)).
Proof.
  assert (Hwf : noDangling
            (st_nodes (select ["1"] ["reactflow__edge-1-2"] pair12))
            (st_edges (select ["1"] ["reactflow__edge-1-2"] pair12))).
  { apply noDangling_Forall. unfold present. repeat constructor. }
  assert (Hinc : incidentSelected (select ["1"] ["reactflow__edge-1-2"] pair12)).
  { intros edge node Hedge _ _ _.
    apply list_elem_of_singleton in Hedge as ->. by vm_compute. }
  split; [done|]. split; [done|].
  by apply (proj2 (handleKeyDown_no_dangling _)).
Defined.

(** C3 as stated, for every delete operation, fails.  Deleting node 1
    alone from nodes 1 and 2 with the edge 1→2 keeps the edge, whose
    source is gone. *)
Lemma deleteSelection_leaves_dangling :
  noDangling (st_nodes pair12) (st_edges pair12)
  ∧ deleteSelection ["1"] [] pair12
    = {| st_nodes := [mkNode "2"]; st_edges := [mkEdge "1" "2"];
         nodeIdCounter := Int 3 |}
  ∧ ¬ noDangling (st_nodes (deleteSelection ["1"] [] pair12))
                 (st_edges (deleteSelection ["1"] [] pair12)).
Proof.
  split_and!.
  - apply noDangling_Forall. unfold present. repeat constructor.
  - by vm_compute.
  - intros Hwf. destruct (Hwf (mkEdge "1" "2")) as [Hsrc _].
    + by left.
    + revert Hsrc. unfold present. compute_done.
Qed.

(** ** The id counter *)

Lemma nearestDouble_safe z : (Z.abs z ≤ 2 ^ 53)%Z → nearestDouble z = Int z.
Proof. intros Hz. unfold nearestDouble. by rewrite (proj2 (Z.leb_le _ _)). Qed.

(** Below [2^53] adding one is exact. *)
Lemma num_succ_safe z :
  (- 2 ^ 53 ≤ z < 2 ^ 53)%Z → num_succ (Int z) = Int (z + 1).
Proof. intros Hz. apply nearestDouble_safe. lia. Qed.

Lemma toString_safe bigToString z :
  (Z.abs z ≤ 2 ^ 53)%Z → toString bigToString (Int z) = pretty z.
Proof. intros Hz. unfold toString. by rewrite (proj2 (Z.leb_le _ _)). Qed.

Lemma step_counter bigToString layout ed op :
  op ≠ Clear true →
  nodeIdCounter (step bigToString layout ed op)
  = match op with
    | AddNode _ _ _ => num_succ (nodeIdCounter ed)
    | _ => nodeIdCounter ed
    end.
Proof.
  intros Hop. destruct op as [label rx ry|params|nodeIds edgeIds|[]|]; simpl;
    try done.
  - unfold onConnect. by destruct (isValidConnection _ _ _).
  - unfold deleteSelection.
    by destruct (handleKeyDown_filters (select nodeIds edgeIds ed)) as (_ & _ & ->).
  - unfold onAutoLayout. by destruct (layout _ _).
Qed.

Lemma allocated_from bigToString layout ops : ∀ ed c,
  nodeIdCounter ed = Int c →
  (- 2 ^ 53 ≤ c)%Z → (c + Z.of_nat (additions ops) ≤ 2 ^ 53)%Z →
  noClear ops →
  Forall (λ i, ∃ z, (c ≤ z)%Z ∧ i = pretty z)
         (allocated bigToString layout ed ops)
  ∧ NoDup (allocated bigToString layout ed ops).
Proof.
  induction ops as [|op ops IH]; intros ed c Hc Hlow Hhigh Hops.
  { split; constructor. }
  apply Forall_cons in Hops as [Hop Hops].
  pose proof (step_counter bigToString layout ed op Hop) as Hstep.
  rewrite Hc in Hstep.
  destruct op as [label rx ry|params|nodeIds edgeIds|confirmed|];
    cbn [allocated]; cbn [additions] in Hhigh;
    try (eapply IH; [exact Hstep|done..]).
  rewrite num_succ_safe in Hstep by lia.
  destruct (IH _ _ Hstep ltac:(lia) ltac:(lia) Hops) as [Hall Hnodup].
  rewrite Hc, toString_safe by lia. split.
  - constructor; [exists c; split; [lia|done]|].
    eapply Forall_impl; [exact Hall|]. intros i (z & Hz & ->).
    exists z. split; [lia|done].
  - constructor; [|done]. intros Hin.
    eapply Forall_forall in Hall as (z & Hz & Heq); [|exact Hin].
    apply (inj pretty) in Heq. lia.
Qed.

(** C7, amended.  The ids come from a counter that every [addNode]
    increases by one and that deleting, connecting and laying out leave
    alone.  In a session without a confirmed [clear], that starts with
    the counter at an integer from [-2^53] on and makes no more [addNode]
    calls than the counter has integers left up to [2^53], every
    [addNode] allocates an id distinct from the ids allocated before. *)
Theorem allocated_NoDup bigToString layout ed c ops :
  nodeIdCounter ed = Int c →
  (- 2 ^ 53 ≤ c)%Z → (c + Z.of_nat (additions ops) ≤ 2 ^ 53)%Z →
  noClear ops →
  NoDup (allocated bigToString layout ed ops).
Proof. intros Hc Hlow Hhigh Hops. by eapply allocated_from. Qed.

Lemma allocated_NoDup_witness :
  nodeIdCounter initialEditor = Int 1
  ∧ (- 2 ^ 53 ≤ 1)%Z
  ∧ (1 + Z.of_nat
           (additions [AddNode "A" 0 0; AddNode "B" 0 0;
              ConnectNodes {| conn_source := "1"; conn_target := "2" |};
              DeleteSelection ["2"] []; AutoLayout; Clear false;
              AddNode "C" 0 0]) ≤ 2 ^ 53)%Z
  ∧ noClear [AddNode "A" 0 0; AddNode "B" 0 0;
             ConnectNodes {| conn_source := "1"; conn_target := "2" |};
             DeleteSelection ["2"] []; AutoLayout; Clear false;
             AddNode "C" 0 0]
  ∧ NoDup (allocated plainDigits noLayout initialEditor
             [AddNode "A" 0 0; AddNode "B" 0 0;
              ConnectNodes {| conn_source := "1"; conn_target := "2" |};
              DeleteSelection ["2"] []; AutoLayout; Clear false;
              AddNode "C" 0 0]).
Proof.
  assert (Hops : noClear [AddNode "A" 0 0; AddNode "B" 0 0;
             ConnectNodes {| conn_source := "1"; conn_target := "2" |};
             DeleteSelection ["2"] []; AutoLayout; Clear false;
             AddNode "C" 0 0]).
  { unfold noClear. repeat constructor; discriminate. }
  assert (Hlow : (- 2 ^ 53 ≤ 1)%Z) by lia.
  assert (Hhigh : (1 + Z.of_nat
           (additions [AddNode "A" 0 0; AddNode "B" 0 0;
              ConnectNodes {| conn_source := "1"; conn_target := "2" |};
              DeleteSelection ["2"] []; AutoLayout; Clear false;
              AddNode "C" 0 0]) ≤ 2 ^ 53)%Z) by (cbn [additions]; lia).
  split; [done|]. split; [done|]. split; [done|]. split; [done|].
  by apply (allocated_NoDup plainDigits noLayout initialEditor 1).
Defined.

(** C7 as stated, for every session, fails.  A confirmed [clear] sets the
    counter back to 1: the next [addNode] allocates the id 1 again. *)
Lemma allocated_again_after_clear :
  allocated plainDigits noLayout initialEditor
    [AddNode "A" 0 0; Clear true; AddNode "B" 0 0] = ["1"; "1"]
  ∧ ¬ NoDup (allocated plainDigits noLayout initialEditor
               [AddNode "A" 0 0; Clear true; AddNode "B" 0 0]).
Proof.
  assert (Heq : allocated plainDigits noLayout initialEditor
            [AddNode "A" 0 0; Clear true; AddNode "B" 0 0] = ["1"; "1"])
    by (by vm_compute).
  split; [done|]. rewrite Heq. intros Hnd.
  apply NoDup_cons in Hnd as [Hnotin _]. apply Hnotin. by left.
Qed.

(** ** Import and export *)

(** C4 fails on the scenario of the specification.  An empty array and a
    non-empty string are both truthy, so the file passes the check; the
    string becomes the edge collection, the nodes are emptied, the counter
    becomes [-Infinity] and a success is reported. *)
Theorem onImport_edges_not_an_array parseInt (s : Store) :
  onImport parseInt (Some edgesNotAnArray) s
  = ({| raw_nodes := JArray [];
        raw_edges := JString "not-an-array";
        raw_counter := NegInfinity |}, Some importSuccess).
Proof. reflexivity. Qed.

(** What the check does reject: a file that does not parse, [null], and
    a document without a truthy [nodes] or [edges]. *)
Lemma onImport_unparsed parseInt s :
  onImport parseInt None s = (s, Some importError).
Proof. reflexivity. Qed.

Lemma onImport_missing parseInt data s :
  truthy (property data "nodes") && truthy (property data "edges") = false →
  (onImport parseInt (Some data) s).1 = s.
Proof.
  intros Hfalsy. unfold onImport.
  destruct data as [| | | | |properties]; try done.
  unfold property in *.
  destruct (lookupProperty "nodes" properties) as [dn|]; [|done].
  destruct (lookupProperty "edges" properties) as [de|]; [|done].
  by rewrite Hfalsy.
Qed.

(** A truthy [nodes] that is not an array is stored before the exception
    that ends the import. *)
Lemma onImport_nodes_not_an_array parseInt s :
  onImport parseInt
    (Some (JObject [("nodes", JNumber 5); ("edges", JArray [])])) s
  = ({| raw_nodes := JNumber 5; raw_edges := JArray [];
        raw_counter := raw_counter s |}, Some importError).
Proof. reflexivity. Qed.

Lemma nodeOfJSON_nodeToJSON node : nodeOfJSON (nodeToJSON node) = Some node.
Proof. by destruct node as [? ? [] [] ?]. Qed.

Lemma edgeOfJSON_edgeToJSON edge : edgeOfJSON (edgeToJSON edge) = Some edge.
Proof. by destruct edge. Qed.

Lemma listOfJSON_fmap {A} (read : JSON → option A) (write : A → JSON) l :
  (∀ x, read (write x) = Some x) →
  listOfJSON read (JArray (write <$> l)) = Some l.
Proof.
  intros Hrw. simpl. apply mapM_Some.
  induction l; simpl; constructor; auto.
Qed.

(** The id of a node that the editor made is a string, on which
    [parseInt] does not throw. *)
Lemma idNumber_nodeToJSON parseInt node :
  idNumber parseInt (nodeToJSON node)
  = Some (default (Int 0)
            (parsePrimitive parseInt (Some (JString (node_id node))))).
Proof.
  unfold idNumber, callParseInt.
  change (property (nodeToJSON node) "id") with (Some (JString (node_id node))).
  cbn. by destruct (parsePrimitive parseInt _).
Qed.

Lemma maxId_nodes parseInt nodes :
  ∃ m, maxId parseInt (JArray (nodeToJSON <$> nodes)) = Some m.
Proof.
  unfold maxId.
  destruct (mapM _ (nodeToJSON <$> nodes)) as [ids|] eqn:Hids; simpl; [by eauto|].
  exfalso. apply mapM_None, Exists_exists in Hids as (v & Hv & Hnone).
  apply list_elem_of_fmap in Hv as (node & -> & _).
  by rewrite idNumber_nodeToJSON in Hnone.
Qed.

(** The import of a document that passes the check. *)
Lemma onImport_checked parseInt data dataNodes dataEdges s :
  property data "nodes" = Some dataNodes →
  property data "edges" = Some dataEdges →
  truthy (Some dataNodes) = true → truthy (Some dataEdges) = true →
  onImport parseInt (Some data) s
  = match maxId parseInt dataNodes with
    | Some m => ({| raw_nodes := dataNodes; raw_edges := dataEdges;
                    raw_counter := num_succ m |}, Some importSuccess)
    | None => ({| raw_nodes := dataNodes; raw_edges := dataEdges;
                  raw_counter := raw_counter s |}, Some importError)
    end.
Proof.
  intros Hn He Htn Hte. unfold onImport.
  destruct data as [| | | | |properties]; try done.
  by rewrite Hn, He, Htn, Hte.
Qed.

Lemma property_onExport_nodes graphName isoTime ed :
  property (onExport graphName isoTime ed) "nodes"
  = Some (JArray (nodeToJSON <$> st_nodes ed)).
Proof. reflexivity. Qed.

Lemma property_onExport_edges graphName isoTime ed :
  property (onExport graphName isoTime ed) "edges"
  = Some (JArray (edgeToJSON <$> st_edges ed)).
Proof. reflexivity. Qed.

(** C6.  Importing the document that [onExport] writes succeeds, whatever
    the editor held before, and the node and edge collections it stores
    are those of the exported graph: the same ids, labels, positions and
    edges. *)
Theorem onImport_onExport parseInt graphName isoTime ed s :
  ∃ counter,
    onImport parseInt (Some (onExport graphName isoTime ed)) s
    = (storeOf {| st_nodes := st_nodes ed; st_edges := st_edges ed;
                  nodeIdCounter := counter |}, Some importSuccess)
    ∧ listOfJSON nodeOfJSON
        (raw_nodes (onImport parseInt (Some (onExport graphName isoTime ed)) s).1)
      = Some (st_nodes ed)
    ∧ listOfJSON edgeOfJSON
        (raw_edges (onImport parseInt (Some (onExport graphName isoTime ed)) s).1)
      = Some (st_edges ed).
Proof.
  destruct (maxId_nodes parseInt (st_nodes ed)) as (m & Hm).
  exists (num_succ m).
  assert (Hrun : onImport parseInt (Some (onExport graphName isoTime ed)) s
    = (storeOf {| st_nodes := st_nodes ed; st_edges := st_edges ed;
                  nodeIdCounter := num_succ m |}, Some importSuccess)).
  { rewrite (onImport_checked parseInt _ _ _ s
               (property_onExport_nodes graphName isoTime ed)
               (property_onExport_edges graphName isoTime ed)) by done.
    by rewrite Hm. }
  rewrite Hrun. split; [done|]. simpl.
  split; [apply (listOfJSON_fmap nodeOfJSON), nodeOfJSON_nodeToJSON
         |apply (listOfJSON_fmap edgeOfJSON), edgeOfJSON_edgeToJSON].
Qed.

(** ** Validation is a function of the graph *)

Lemma useDAGValidation_cellOf rs cell nodes edges :
  cellOf rs cell →
  cellOf (rs ++ [(nodes, edges)]) (useDAGValidation cell nodes edges).2.
Proof.
  intros Hcell. unfold useDAGValidation, useMemo.
  assert (Hnew : cellOf (rs ++ [(nodes, edges)])
            (Some {| memo_deps := (arr_ref nodes, arr_ref edges);
                     memo_value := validate (arr_items nodes) (arr_items edges) |})).
  { exists (nodes, edges). split; [|done]. apply elem_of_app. right. by left. }
  destruct cell as [c|]; [|done]. case_decide; [|done]. simpl.
  destruct Hcell as (r & Hr & Hdeps & Hval). exists r.
  split; [|done]. apply elem_of_app. by left.
Qed.

Lemma renders_cellOf history : cellOf history (renders history).
Proof.
  unfold renders. induction history as [|r history IH] using rev_ind; [done|].
  rewrite foldl_app. simpl. destruct r as [nodes edges].
  by apply useDAGValidation_cellOf.
Qed.

(** The report is the one of the graph at hand, whatever was rendered
    before. *)
Lemma reportAfter_validate history nodes edges :
  immutable (history ++ [(nodes, edges)]) →
  reportAfter history nodes edges = validate (arr_items nodes) (arr_items edges).
Proof.
  intros Himm. unfold reportAfter, useDAGValidation, useMemo.
  pose proof (renders_cellOf history) as Hcell.
  destruct (renders history) as [c|]; [|done].
  case_decide as Hdeps; [|done]. simpl.
  destruct Hcell as (r & Hr & Hrdeps & ->).
  rewrite Hrdeps in Hdeps. injection Hdeps as Hn He.
  destruct (Himm r (nodes, edges)) as [Hnodes Hedges].
  { apply elem_of_app. by left. }
  { apply elem_of_app. right. by left. }
  simpl in *. by rewrite Hnodes, Hedges.
Qed.

(** C8, amended.  As long as no array of the state is modified in
    place, two runs of the validation on the same node and edge
    collections give the same report, flag, errors and warnings in
    order, whatever was validated before each of them. *)
Theorem validate_deterministic history1 history2 nodes1 edges1 nodes2 edges2 :
  immutable (history1 ++ [(nodes1, edges1)]) →
  immutable (history2 ++ [(nodes2, edges2)]) →
  arr_items nodes1 = arr_items nodes2 →
  arr_items edges1 = arr_items edges2 →
  reportAfter history1 nodes1 edges1 = reportAfter history2 nodes2 edges2.
Proof.
  intros Himm1 Himm2 Hnodes Hedges.
  rewrite !reportAfter_validate by done. by rewrite Hnodes, Hedges.
Qed.

Lemma immutable_Forall rs :
  Forall (λ r, Forall (λ r',
    (arr_ref r.1 = arr_ref r'.1 → arr_items r.1 = arr_items r'.1)
    ∧ (arr_ref r.2 = arr_ref r'.2 → arr_items r.2 = arr_items r'.2)) rs) rs →
  immutable rs.
Proof.
  intros Hall r r' Hr Hr'.
  eapply Forall_forall in Hall; [|exact Hr].
  eapply Forall_forall in Hall; [|exact Hr']. done.
Qed.

Lemma validate_deterministic_witness :
  immutable ([] ++ [(cycleNodes 1, cycleEdges 2)])
  ∧ immutable (earlierRenders ++ [(cycleNodes 5, cycleEdges 6)])
  ∧ reportAfter [] (cycleNodes 1) (cycleEdges 2)
    = reportAfter earlierRenders (cycleNodes 5) (cycleEdges 6).
Proof.
  assert (H1 : immutable ([] ++ [(cycleNodes 1, cycleEdges 2)])).
  { apply immutable_Forall. repeat constructor. }
  assert (H2 : immutable (earlierRenders ++ [(cycleNodes 5, cycleEdges 6)])).
  { apply immutable_Forall.
    repeat constructor; simpl; intros Href; done. }
  split; [done|]. split; [done|].
  by apply validate_deterministic.
Defined.

(** C8 as stated, whatever the history, fails.  The hook keeps the report
    of the previous render for as long as it is given the same two array
    objects: after a render of the empty graph, the cycle between 1 and 2
    written into those same arrays is reported valid, while a first
    render of the same collections reports the cycle. *)
Lemma useDAGValidation_stale :
  arr_items (cycleNodes 1) = arr_items (cycleNodes 5)
  ∧ arr_items (cycleEdges 2) = arr_items (cycleEdges 6)
  ∧ isValid (reportAfter emptyRender (cycleNodes 1) (cycleEdges 2)) = true
  ∧ isValid (reportAfter [] (cycleNodes 5) (cycleEdges 6)) = false
  ∧ reportAfter emptyRender (cycleNodes 1) (cycleEdges 2)
    ≠ reportAfter [] (cycleNodes 5) (cycleEdges 6).
Proof.
  assert (H1 : isValid (reportAfter emptyRender (cycleNodes 1) (cycleEdges 2))
               = true) by (by vm_compute).
  assert (H2 : isValid (reportAfter [] (cycleNodes 5) (cycleEdges 6)) = false)
    by (by vm_compute).
  split; [done|]. split; [done|]. split; [done|]. split; [done|].
  intros Heq. rewrite Heq, H2 in H1. discriminate.
Qed.

(** ** The layers of the layout *)

Lemma lookup_batch (batch : list Node) k (layer : gmap string nat) i :
  foldr (λ node acc, <[node_id node := k]> acc) layer batch !! i
  = if decide (present batch i) then Some k else layer !! i.
Proof.
  induction batch as [|node batch IH]; cbn [foldr].
  { rewrite decide_False; [done|]. unfold present. apply not_elem_of_nil. }
  rewrite lookup_insert. destruct (decide (node_id node = i)) as [<-|Hne].
  - rewrite decide_True; [done|]. unfold present. by left.
  - rewrite IH. destruct (decide (present batch i)) as [Hin|Hout].
    + rewrite decide_True; [done|]. unfold present in *. by right.
    + rewrite decide_False; [done|]. unfold present in *. intros Hin.
      apply elem_of_cons in Hin as [?|?]; by simplify_eq.
Qed.

Lemma ready_same_id edges layer node node' :
  node_id node = node_id node' → ready edges layer node → ready edges layer node'.
Proof. unfold ready. intros Heq. by rewrite Heq. Qed.

Lemma layersInv_init nodes edges : layersInv nodes edges 0 nodes ∅.
Proof.
  split.
  - intros i Hi. by right.
  - intros node _. rewrite dom_empty. apply not_elem_of_empty.
  - intros i l Hl. by rewrite lookup_empty in Hl.
  - intros i l Hl. by rewrite lookup_empty in Hl.
  - intros i l Hl. by rewrite lookup_empty in Hl.
  - lia.
Qed.

Lemma layersInv_round nodes edges k remaining layer :
  layersInv nodes edges k remaining layer →
  layersInv nodes edges (S k)
    (filter (λ node, ¬ ready edges layer node) remaining)
    (foldr (λ node acc, <[node_id node := k]> acc) layer
           (filter (ready edges layer) remaining)).
Proof.
  intros Hinv.
  set (batch := filter (ready edges layer) remaining).
  set (layer' := foldr (λ node acc, <[node_id node := k]> acc) layer batch).
  assert (Hold : ∀ i l, layer !! i = Some l → layer' !! i = Some l).
  { intros i l Hi. unfold layer'. rewrite lookup_batch.
    rewrite decide_False; [done|]. intros Hin.
    apply list_elem_of_fmap in Hin as (node & -> & Hnode).
    apply list_elem_of_filter in Hnode as [_ Hnode].
    apply (lay_fresh _ _ _ _ _ Hinv) in Hnode. apply Hnode.
    apply elem_of_dom. eauto. }
  assert (Hnew : ∀ i l, layer' !! i = Some l →
            layer !! i = Some l
            ∨ (l = k ∧ ∃ node, node ∈ remaining ∧ node_id node = i
                               ∧ ready edges layer node)).
  { intros i l. unfold layer'. rewrite lookup_batch.
    case_decide as Hin; [|by left]. intros [= <-]. right. split; [done|].
    apply list_elem_of_fmap in Hin as (node & -> & Hnode).
    apply list_elem_of_filter in Hnode as [? ?]. eauto. }
  assert (Hbatch : ∀ node, node ∈ remaining → ready edges layer node →
            layer' !! node_id node = Some k).
  { intros node Hnode Hready. unfold layer'. rewrite lookup_batch.
    rewrite decide_True; [done|]. apply list_elem_of_fmap_2.
    by apply list_elem_of_filter. }
  split.
  - intros i Hi. destruct (lay_cover _ _ _ _ _ Hinv i Hi) as [Hdom|Hrem].
    + left. apply elem_of_dom in Hdom as [l Hl]. apply elem_of_dom. eauto.
    + apply list_elem_of_fmap in Hrem as (node & -> & Hnode).
      destruct (decide (ready edges layer node)) as [Hready|Hnot].
      * left. apply elem_of_dom. eauto.
      * right. apply list_elem_of_fmap_2. by apply list_elem_of_filter.
  - intros node Hnode. apply list_elem_of_filter in Hnode as [Hnot Hnode].
    intros Hdom. apply elem_of_dom in Hdom as [l Hl].
    apply Hnew in Hl as [Hl|(_ & node' & Hnode' & Hid & Hready)].
    + apply (lay_fresh _ _ _ _ _ Hinv node Hnode). apply elem_of_dom. eauto.
    + apply Hnot. by eapply ready_same_id.
  - intros i l Hl. apply Hnew in Hl as [Hl|[-> _]]; [|lia].
    apply (lay_below _ _ _ _ _ Hinv) in Hl. lia.
  - intros i l Hl. apply Hnew in Hl as [Hl|(-> & node & Hnode & <- & Hready)].
    + eapply Forall_impl; [by eapply lay_preds|].
      intros p (lp & Hlp & Hlt). eauto.
    + eapply Forall_impl; [exact Hready|]. intros p Hp. simpl in Hp.
      apply elem_of_dom in Hp as [lp Hlp]. exists lp. split; [by apply Hold|].
      by eapply lay_below.
  - intros i l Hl Hpos.
    apply Hnew in Hl as [Hl|(-> & node & Hnode & <- & Hready)].
    + destruct (lay_tight _ _ _ _ _ Hinv i l Hl Hpos) as (p & Hp & Hlp). eauto.
    + destruct (lay_late _ _ _ _ _ Hinv Hpos node Hnode) as (p & Hp & Hcase).
      exists p. split; [done|]. apply Hold.
      destruct Hcase as [Hout|Hlp]; [|done]. exfalso. apply Hout.
      unfold ready in Hready. by eapply Forall_forall in Hready.
  - intros _ node Hnode. apply list_elem_of_filter in Hnode as [Hnot Hnode].
    apply not_Forall_Exists in Hnot; [|apply _].
    apply Exists_exists in Hnot as (p & Hp & Hout). simpl in Hout.
    exists p. split; [done|]. replace (S k - 1) with k by lia.
    destruct (layer' !! p) as [lp|] eqn:Hlp.
    + right. apply Hnew in Hlp as [Hlp|[-> _]]; [|done].
      exfalso. apply Hout. apply elem_of_dom. eauto.
    + left. by apply not_elem_of_dom.
Qed.

(** The rounds end in a state where no node that remains is ready. *)
Lemma assignLayers_stuck nodes edges fuel : ∀ k remaining layer,
  layersInv nodes edges k remaining layer → length remaining ≤ fuel →
  ∃ remaining',
    layersInv nodes edges (assignLayers fuel k edges remaining layer).2
      remaining' (assignLayers fuel k edges remaining layer).1
    ∧ filter (ready edges (assignLayers fuel k edges remaining layer).1)
             remaining' = [].
Proof.
  induction fuel as [|fuel IH]; intros k remaining layer Hinv Hlen.
  { destruct remaining; [|simpl in Hlen; lia]. by exists []. }
  cbn [assignLayers]. destruct (filter (ready edges layer) remaining) as [|b batch] eqn:Hbatch.
  { by exists remaining. }
  rewrite <- Hbatch. apply IH.
  - by apply layersInv_round.
  - assert (Hb : b ∈ filter (ready edges layer) remaining).
    { rewrite Hbatch. by left. }
    apply list_elem_of_filter in Hb as [Hready Hb].
    pose proof (length_filter_lt (λ node, ¬ ready edges layer node)
                  remaining b Hb) as Hlt.
    assert (¬ ¬ ready edges layer b) by tauto. specialize (Hlt H). lia.
Qed.

(** In a finite collection, an irreflexive and transitive relation cannot
    have a predecessor for every element. *)
Lemma no_minimal_absurd {A} (T : relation A) (l : list A) :
  (∀ x, ¬ T x x) → (∀ x y z, T x y → T y z → T x z) →
  l ≠ [] →
  ¬ ∀ m, m ∈ l → ¬ ∀ p, p ∈ l → ¬ T p m.
Proof.
  intros Hirr Htrans. induction l as [|a l IH]; [done|]. intros _ Hall.
  destruct l as [|b l].
  { apply (Hall a); [by left|]. intros p Hp.
    apply list_elem_of_singleton in Hp as ->. apply Hirr. }
  apply IH; [done|]. intros m Hm Hmin.
  apply (Hall m); [by right|]. intros p Hp Hpm.
  apply elem_of_cons in Hp as [->|Hp]; [|by eapply Hmin].
  apply (Hall a); [by left|]. intros q Hq Hqa.
  apply elem_of_cons in Hq as [->|Hq]; [by eapply Hirr|].
  eapply Hmin; [exact Hq|]. by eapply Htrans.
Qed.

Section ValidDag.
Variables (nodes : list Node) (edges : list Edge).
Hypothesis wellFormed : noDangling nodes edges.
Hypothesis acyclic : ¬ hasDirectedCycle edges.

Lemma predecessors_edgeRel p i :
  p ∈ predecessors edges i ↔ edgeRel edges p i.
Proof.
  unfold predecessors, edgeRel. rewrite list_elem_of_fmap.
  setoid_rewrite list_elem_of_filter. naive_solver.
Qed.

(** In a valid graph the rounds place every node. *)
Lemma stuck_nothing_remains k remaining layer :
  layersInv nodes edges k remaining layer →
  filter (ready edges layer) remaining = [] →
  remaining = [].
Proof.
  intros Hinv Hstuck. destruct remaining as [|node0 rest] eqn:Hrem; [done|].
  exfalso. rewrite <- Hrem in *.
  apply (no_minimal_absurd
           (λ a b, tc (edgeRel edges) (node_id a) (node_id b)) remaining).
  - intros x Hx. apply acyclic. by exists (node_id x).
  - intros x y z. apply tc_trans.
  - by rewrite Hrem.
  - intros m Hm Hmin.
    assert (Hready : ready edges layer m).
    { apply Forall_forall. intros p Hp. apply predecessors_edgeRel in Hp.
      destruct Hp as (e & He & Hsrc & Htgt).
      destruct (wellFormed e He) as [Hpresent _]. rewrite Hsrc in Hpresent.
      destruct (lay_cover _ _ _ _ _ Hinv p Hpresent) as [Hdom|Hleft]; [done|].
      exfalso. apply list_elem_of_fmap in Hleft as (q & -> & Hq).
      apply (Hmin q Hq). apply tc_once. by exists e. }
    eapply (filter_nil_not_elem_of _ _ m Hstuck); done.
Qed.

Lemma layerOf_placed :
  ∃ layer k, assignLayers (length nodes) 0 edges nodes ∅ = (layer, k)
    ∧ layersInv nodes edges k [] layer
    ∧ ∀ i, present nodes i →
        ∃ l, layer !! i = Some l ∧ layerOf nodes edges i = l.
Proof.
  destruct (assignLayers_stuck nodes edges (length nodes) 0 nodes ∅)
    as (remaining & Hinv & Hstuck); [apply layersInv_init|done|].
  unfold layerOf.
  destruct (assignLayers (length nodes) 0 edges nodes ∅) as [layer k].
  simpl in *. exists layer, k. split; [done|].
  rewrite (stuck_nothing_remains _ _ _ Hinv Hstuck) in Hinv.
  split; [done|]. intros i Hi.
  destruct (lay_cover _ _ _ _ _ Hinv i Hi) as [Hdom|Hleft].
  - apply elem_of_dom in Hdom as [l Hl]. exists l. by rewrite Hl.
  - unfold present in Hleft. by apply elem_of_nil in Hleft.
Qed.

Lemma layerOf_edge i j :
  edgeRel edges i j → layerOf nodes edges i < layerOf nodes edges j.
Proof.
  intros Hij. destruct layerOf_placed as (layer & k & _ & Hinv & Hall).
  pose proof Hij as (e & He & Hsrc & Htgt).
  destruct (wellFormed e He) as [Hi Hj]. rewrite Hsrc in Hi. rewrite Htgt in Hj.
  destruct (Hall i Hi) as (li & Hli & ->).
  destruct (Hall j Hj) as (lj & Hlj & ->).
  pose proof (lay_preds _ _ _ _ _ Hinv j lj Hlj) as Hpreds.
  eapply Forall_forall in Hpreds as (lp & Hlp & Hlt);
    [|by apply predecessors_edgeRel].
  by simplify_eq.
Qed.

Lemma layerOf_path i j :
  rtc (edgeRel edges) i j → layerOf nodes edges i ≤ layerOf nodes edges j.
Proof.
  induction 1 as [|i j1 j Hstep _ IH]; [done|].
  apply layerOf_edge in Hstep. lia.
Qed.

(** The layer of a node is 0 without predecessors, and otherwise one
    more than the maximum layer of its direct predecessors. *)
Lemma layerOf_depth i :
  present nodes i →
  layerOf nodes edges i
  = match predecessors edges i with
    | [] => 0
    | preds => S (max_list (layerOf nodes edges <$> preds))
    end.
Proof.
  intros Hi. destruct layerOf_placed as (layer & k & _ & Hinv & Hall).
  destruct (Hall i Hi) as (l & Hl & Hlayer).
  destruct (predecessors edges i) as [|p0 preds] eqn:Hpreds.
  { destruct l as [|l]; [done|].
    destruct (lay_tight _ _ _ _ _ Hinv i _ Hl) as (p & Hp & _); [lia|].
    rewrite Hpreds in Hp. by apply elem_of_nil in Hp. }
  rewrite <- Hpreds.
  assert (Hlt : ∀ p, p ∈ predecessors edges i →
            layerOf nodes edges p < layerOf nodes edges i).
  { intros p Hp. by apply layerOf_edge, predecessors_edgeRel. }
  assert (Hmax : max_list (layerOf nodes edges <$> predecessors edges i)
                 < layerOf nodes edges i).
  { assert (Hin : max_list (layerOf nodes edges <$> predecessors edges i)
                  ∈ layerOf nodes edges <$> predecessors edges i).
    { apply max_list_elem_of. by rewrite Hpreds. }
    apply list_elem_of_fmap in Hin as (p & Heq & Hp).
    rewrite Heq. by apply Hlt. }
  rewrite Hlayer in *.
  destruct l as [|l]; [lia|].
  destruct (lay_tight _ _ _ _ _ Hinv i _ Hl) as (p & Hp & Hlp); [lia|].
  assert (layerOf nodes edges p = l) as Hpl.
  { apply predecessors_edgeRel in Hp as (e & He & Hsrc & _).
    destruct (wellFormed e He) as [Hpresent _]. rewrite Hsrc in Hpresent.
    destruct (Hall p Hpresent) as (l' & Hl' & ->). rewrite Hlp in Hl'.
    injection Hl' as <-. lia. }
  assert (l ≤ max_list (layerOf nodes edges <$> predecessors edges i)); [|lia].
  apply max_list_elem_of_le. rewrite <- Hpl. by apply list_elem_of_fmap_2.
Qed.
End ValidDag.

Lemma computeLayout_node hgap vgap nodes edges a :
  a ∈ (computeLayout hgap vgap nodes edges).1 →
  present nodes (node_id a)
  ∧ pos_y (node_position a)
    = (inject_Z (Z.of_nat (layerOf nodes edges (node_id a))) * vgap)%Q.
Proof.
  unfold computeLayout. simpl. intros Ha.
  apply list_elem_of_lookup in Ha as [i Hi].
  rewrite list_lookup_imap in Hi.
  destruct (nodes !! i) as [node|] eqn:Hnode; [|done].
  injection Hi as <-. simpl. split; [|done].
  apply list_elem_of_fmap_2. by eapply list_elem_of_lookup_2.
Qed.

Lemma computeLayout_ids hgap vgap nodes edges :
  node_id <$> (computeLayout hgap vgap nodes edges).1 = node_id <$> nodes.
Proof.
  unfold computeLayout. simpl. rewrite fmap_imap.
  rewrite <- (imap_const node_id nodes). by apply imap_ext.
Qed.

(** C9.  The layout of a valid DAG, one without dangling edge and without
    cycle, keeps the nodes and the edges and gives every node the height
    of its layer, where a node without incoming edge is at layer 0 and
    the layer of any other node is one more than the maximum layer of its
    direct predecessors; along every directed path the height does not
    decrease. *)
Theorem onAutoLayout_layers hgap vgap ed :
  (0 <= vgap)%Q →
  noDangling (st_nodes ed) (st_edges ed) →
  ¬ hasDirectedCycle (st_edges ed) →
  (node_id <$> st_nodes (onAutoLayout (computeLayout hgap vgap) ed)
     = node_id <$> st_nodes ed
   ∧ st_edges (onAutoLayout (computeLayout hgap vgap) ed) = st_edges ed)
  ∧ (∀ a, a ∈ st_nodes (onAutoLayout (computeLayout hgap vgap) ed) →
       pos_y (node_position a)
       = (inject_Z (Z.of_nat (layerOf (st_nodes ed) (st_edges ed) (node_id a)))
          * vgap)%Q
       ∧ layerOf (st_nodes ed) (st_edges ed) (node_id a)
         = match predecessors (st_edges ed) (node_id a) with
           | [] => 0
           | preds =>
               S (max_list (layerOf (st_nodes ed) (st_edges ed) <$> preds))
           end)
  ∧ (∀ a b, a ∈ st_nodes (onAutoLayout (computeLayout hgap vgap) ed) →
            b ∈ st_nodes (onAutoLayout (computeLayout hgap vgap) ed) →
            rtc (edgeRel (st_edges ed)) (node_id a) (node_id b) →
            (pos_y (node_position a) <= pos_y (node_position b))%Q).
Proof.
  intros Hgap Hwf Hacyclic.
  assert (Hnodes : st_nodes (onAutoLayout (computeLayout hgap vgap) ed)
                   = (computeLayout hgap vgap (st_nodes ed) (st_edges ed)).1)
    by done.
  rewrite Hnodes. split_and!.
  - apply computeLayout_ids.
  - done.
  - intros a Ha. apply computeLayout_node in Ha as [Hpresent Hy].
    split; [done|]. by apply layerOf_depth.
  - intros a b Ha Hb Hpath.
    apply computeLayout_node in Ha as [_ ->].
    apply computeLayout_node in Hb as [_ ->].
    apply Qmult_le_compat_r; [|done].
    rewrite <- Zle_Qle. apply Nat2Z.inj_le. by apply layerOf_path.
Qed.

Lemma onAutoLayout_layers_witness :
  (0 <= 100)%Q
  ∧ noDangling (st_nodes chain123) (st_edges chain123)
  ∧ ¬ hasDirectedCycle (st_edges chain123)
  ∧ (pos_y ∘ node_position) <$> st_nodes (onAutoLayout (computeLayout 150 100) chain123)
    = [0 * 100; 1 * 100; 2 * 100]%Q
  ∧ ∀ a b, a ∈ st_nodes (onAutoLayout (computeLayout 150 100) chain123) →
           b ∈ st_nodes (onAutoLayout (computeLayout 150 100) chain123) →
           rtc (edgeRel (st_edges chain123)) (node_id a) (node_id b) →
           (pos_y (node_position a) <= pos_y (node_position b))%Q.
Proof.
  assert (Hgap : (0 <= 100)%Q) by done.
  assert (Hwf : noDangling (st_nodes chain123) (st_edges chain123)).
  { apply noDangling_Forall. unfold present. repeat constructor. }
  assert (Hacyclic : ¬ hasDirectedCycle (st_edges chain123)).
  { intros Hcyc. apply (directed_reachableCycle _ _ Hwf), hasCycle_true in Hcyc.
    by vm_compute in Hcyc. }
  split; [done|]. split; [done|]. split; [done|]. split; [by vm_compute|].
  by apply (onAutoLayout_layers 150 100 chain123 Hgap Hwf Hacyclic).
Defined.

(** * Further properties of the code *)

(** ** The report of the validation *)

Lemma hasCycle_no_edges nodes : hasCycle nodes [] = false.
Proof.
  apply not_true_is_false. rewrite hasCycle_true.
  intros (node & x & _ & _ & Hcyc). apply tc_source in Hcyc as (e & He & _).
  by apply elem_of_nil in He.
Qed.

(** X1.  Two nodes or more and no edge: the report is valid, has no
    error and has the one warning that nothing is connected. *)
Theorem validate_without_edges nodes :
  2 ≤ length nodes →
  validate nodes []
  = {| isValid := true; errors := []; warnings := [noConnectionsWarning] |}.
Proof.
  intros Hlen. unfold validate. rewrite hasCycle_no_edges. simpl.
  rewrite (decide_False (P := length nodes < 2)) by lia.
  rewrite (decide_True (P := 1 < length nodes)) by lia.
  rewrite decide_False by lia. done.
Qed.

Lemma validate_without_edges_witness :
  2 ≤ length [mkNode "1"; mkNode "2"; mkNode "3"]
  ∧ validate [mkNode "1"; mkNode "2"; mkNode "3"] []
    = {| isValid := true; errors := []; warnings := [noConnectionsWarning] |}.
Proof.
  assert (Hlen : 2 ≤ length [mkNode "1"; mkNode "2"; mkNode "3"]) by (simpl; lia).
  split; [done|]. by apply validate_without_edges.
Defined.

Lemma selfReferenceError_errors nodes edges :
  selfReferenceError ∈ errors (validate nodes edges)
  ↔ ∃ edge, edge ∈ edges ∧ edge_source edge = edge_target edge.
Proof.
  assert (Hex : 0 < length (filter (λ edge, edge_source edge = edge_target edge) edges)
                ↔ ∃ edge, edge ∈ edges ∧ edge_source edge = edge_target edge).
  { split.
    - intros Hlen.
      destruct (filter _ edges) as [|edge rest] eqn:Hfilter; [simpl in Hlen; lia|].
      assert (Hin : edge ∈ filter (λ edge, edge_source edge = edge_target edge) edges)
        by (rewrite Hfilter; by left).
      apply list_elem_of_filter in Hin as [? ?]. eauto.
    - intros (edge & Hedge & Hself).
      assert (Hin : edge ∈ filter (λ edge, edge_source edge = edge_target edge) edges)
        by (by apply list_elem_of_filter).
      destruct (filter _ edges); [by apply elem_of_nil in Hin|simpl; lia]. }
  rewrite <- Hex. unfold validate. simpl.
  destruct (hasCycle nodes edges); case_decide; simpl.
  - split; [done|]. intros _. right. by left.
  - split; [|done]. intros Hin. apply list_elem_of_singleton in Hin. discriminate.
  - split; [done|]. intros _. by left.
  - split; [|done]. intros Hin. by apply elem_of_nil in Hin.
Qed.

(** X2.  An edge from an id to itself, wherever it is, puts the
    self-reference error in the report and makes the graph invalid; the
    error is there for no other reason. *)
Theorem validate_self_reference nodes edges :
  (selfReferenceError ∈ errors (validate nodes edges)
   ↔ ∃ edge, edge ∈ edges ∧ edge_source edge = edge_target edge)
  ∧ ((∃ edge, edge ∈ edges ∧ edge_source edge = edge_target edge) →
     isValid (validate nodes edges) = false).
Proof.
  split; [apply selfReferenceError_errors|]. intros (edge & Hedge & Hself).
  apply not_true_is_false. rewrite isValid_iff. intros [_ Hall].
  by apply (Hall edge).
Qed.

Lemma validate_self_reference_witness :
  (∃ edge, edge ∈ [mkEdge "7" "7"] ∧ edge_source edge = edge_target edge)
  ∧ isValid (validate [mkNode "1"; mkNode "2"] [mkEdge "7" "7"]) = false.
Proof.
  assert (Hself : ∃ edge, edge ∈ [mkEdge "7" "7"]
                          ∧ edge_source edge = edge_target edge).
  { exists (mkEdge "7" "7"). split; [by left|done]. }
  split; [done|].
  by apply (proj2 (validate_self_reference [mkNode "1"; mkNode "2"] [mkEdge "7" "7"])).
Defined.

(** X3.  An edge from a node of the node collection to itself is found
    by both checks: the report has the cycle error and then the
    self-reference error. *)
Theorem validate_self_loop_both nodes edges edge :
  edge ∈ edges → edge_source edge = edge_target edge →
  present nodes (edge_source edge) →
  errors (validate nodes edges) = [cycleError; selfReferenceError].
Proof.
  intros Hedge Hself Hpresent.
  assert (Hcyc : hasCycle nodes edges = true).
  { apply hasCycle_true. apply list_elem_of_fmap in Hpresent as (node & Hid & Hnode).
    exists node, (edge_source edge). split; [done|]. split.
    - rewrite Hid. apply rtc_refl.
    - apply tc_once. exists edge. split; [done|]. split; [done|by symmetry]. }
  assert (Hin : selfReferenceError ∈ errors (validate nodes edges)).
  { apply selfReferenceError_errors. eauto. }
  revert Hin. unfold validate. simpl. rewrite Hcyc. case_decide; [done|].
  intros Hin. apply list_elem_of_singleton in Hin. discriminate.
Qed.

Lemma validate_self_loop_both_witness :
  mkEdge "2" "2" ∈ [mkEdge "1" "2"; mkEdge "2" "2"]
  ∧ edge_source (mkEdge "2" "2") = edge_target (mkEdge "2" "2")
  ∧ present [mkNode "1"; mkNode "2"] (edge_source (mkEdge "2" "2"))
  ∧ errors (validate [mkNode "1"; mkNode "2"] [mkEdge "1" "2"; mkEdge "2" "2"])
    = [cycleError; selfReferenceError].
Proof.
  assert (Hin : mkEdge "2" "2" ∈ [mkEdge "1" "2"; mkEdge "2" "2"])
    by (right; by left).
  assert (Hpresent : present [mkNode "1"; mkNode "2"] (edge_source (mkEdge "2" "2")))
    by (unfold present; right; by left).
  split; [done|]. split; [done|]. split; [done|].
  by apply (validate_self_loop_both _ _ (mkEdge "2" "2")).
Defined.

Lemma errors_cases nodes edges :
  errors (validate nodes edges) = []
  ∨ errors (validate nodes edges) = [cycleError]
  ∨ errors (validate nodes edges) = [selfReferenceError]
  ∨ errors (validate nodes edges) = [cycleError; selfReferenceError].
Proof.
  unfold validate. simpl.
  destruct (hasCycle nodes edges); case_decide; simpl; tauto.
Qed.

(** X4.  A report never has more than one warning, so never both
    warnings about connections, and its errors are the cycle error, the
    self-reference error, both in this order, or none. *)
Theorem validate_shape nodes edges :
  length (warnings (validate nodes edges)) ≤ 1
  ∧ (errors (validate nodes edges) = []
     ∨ errors (validate nodes edges) = [cycleError]
     ∨ errors (validate nodes edges) = [selfReferenceError]
     ∨ errors (validate nodes edges) = [cycleError; selfReferenceError]).
Proof.
  split; [|apply errors_cases].
  unfold validate. simpl. repeat case_decide; simpl; lia.
Qed.

Lemma connectedNodes_fold edges : ∀ (acc : gset string) x,
  x ∈ foldl (λ acc edge, {[edge_target edge]} ∪ ({[edge_source edge]} ∪ acc))
            acc edges
  ↔ x ∈ acc ∨ ∃ edge, edge ∈ edges
                     ∧ (edge_source edge = x ∨ edge_target edge = x).
Proof.
  induction edges as [|edge edges IH]; intros acc x; simpl.
  { split; [by left|]. intros [?|(e & He & _)]; [done|].
    by apply elem_of_nil in He. }
  rewrite IH. rewrite !elem_of_union, !elem_of_singleton. split.
  - intros [[->|[->|Hacc]]|(e & He & Hx)].
    + right. exists edge. split; [by left|by right].
    + right. exists edge. split; [by left|by left].
    + by left.
    + right. exists e. split; [by right|done].
  - intros [Hacc|(e & He & Hx)]; [left; by right; right|].
    apply elem_of_cons in He as [->|He].
    + left. destruct Hx as [<-|<-]; [right; by left|by left].
    + right. eauto.
Qed.

(** The set that the validation collects holds the ids at the two ends of
    the edges. *)
Lemma elem_of_connectedNodes edges x :
  x ∈ connectedNodes edges
  ↔ ∃ edge, edge ∈ edges ∧ (edge_source edge = x ∨ edge_target edge = x).
Proof.
  unfold connectedNodes. rewrite connectedNodes_fold. split; [|by right].
  intros [Hin|?]; [|done]. by apply not_elem_of_empty in Hin.
Qed.

Lemma disconnectedWarning_warnings nodes edges :
  disconnectedWarning ∈ warnings (validate nodes edges)
  ↔ 1 < length nodes ∧ size (connectedNodes edges) < length nodes
    ∧ 0 < length edges.
Proof.
  unfold validate. simpl.
  repeat case_decide; simpl;
    rewrite ?elem_of_app, ?elem_of_cons, ?elem_of_nil;
    unfold minNodesWarning, disconnectedWarning, noConnectionsWarning;
    naive_solver lia.
Qed.

(** X5.  When the nodes have distinct ids and each of them is at an end
    of some edge, the report does not warn about unconnected nodes. *)
Theorem validate_all_connected nodes edges :
  NoDup (node_id <$> nodes) →
  (∀ node, node ∈ nodes → node_id node ∈ connectedNodes edges) →
  disconnectedWarning ∉ warnings (validate nodes edges).
Proof.
  intros Hnodup Hall. rewrite disconnectedWarning_warnings.
  intros (_ & Hsize & _).
  assert (length nodes ≤ size (connectedNodes edges)); [|lia].
  rewrite <- (length_fmap node_id nodes),
          <- (size_list_to_set (C := gset string)) by done.
  apply subseteq_size. intros i Hi.
  apply elem_of_list_to_set, list_elem_of_fmap in Hi as (node & -> & Hnode).
  by apply Hall.
Qed.

Lemma validate_all_connected_witness :
  NoDup (node_id <$> st_nodes chain123)
  ∧ (∀ node, node ∈ st_nodes chain123 →
       node_id node ∈ connectedNodes (st_edges chain123))
  ∧ disconnectedWarning
    ∉ warnings (validate (st_nodes chain123) (st_edges chain123)).
Proof.
  assert (Hnodup : NoDup (node_id <$> st_nodes chain123)).
  { apply (bool_decide_unpack _). by vm_compute. }
  assert (Hall : ∀ node, node ∈ st_nodes chain123 →
            node_id node ∈ connectedNodes (st_edges chain123)).
  { intros node Hnode. apply elem_of_connectedNodes.
    repeat (apply elem_of_cons in Hnode as [->|Hnode]);
      [exists (mkEdge "1" "2")|exists (mkEdge "1" "2")|exists (mkEdge "2" "3")|
       by apply elem_of_nil in Hnode].
    - split; [by left|by left].
    - split; [by left|by right].
    - split; [right; by left|by right]. }
  split; [done|]. split; [done|].
  by apply validate_all_connected.
Defined.

(** X6.  In a graph that has an edge and no dangling edge, a node that
    no edge touches brings the warning about unconnected nodes. *)
Theorem validate_isolated_node nodes edges node :
  noDangling nodes edges → 0 < length edges →
  node ∈ nodes → node_id node ∉ connectedNodes edges →
  disconnectedWarning ∈ warnings (validate nodes edges).
Proof.
  intros Hwf Hedges Hnode Hout. rewrite disconnectedWarning_warnings.
  assert (Hsub : connectedNodes edges
                 ⊂ list_to_set (C := gset string) (node_id <$> nodes)).
  { split.
    - intros i Hi. apply elem_of_connectedNodes in Hi as (e & He & Hend).
      destruct (Hwf e He) as [Hs Ht]. apply elem_of_list_to_set.
      by destruct Hend as [<-|<-].
    - intros Hsup. apply Hout, Hsup, elem_of_list_to_set.
      by apply list_elem_of_fmap_2. }
  apply subset_size in Hsub.
  pose proof (size_list_to_set_le (node_id <$> nodes)) as Hle.
  rewrite length_fmap in Hle.
  assert (0 < size (connectedNodes edges)).
  { destruct edges as [|e edges']; [simpl in Hedges; lia|].
    assert (Hin : edge_source e ∈ connectedNodes (e :: edges')).
    { apply elem_of_connectedNodes. exists e. split; [by left|by left]. }
    destruct (size (connectedNodes (e :: edges'))) eqn:Hsize; [|lia].
    apply size_empty_inv in Hsize. set_solver. }
  lia.
Qed.

Lemma validate_isolated_node_witness :
  noDangling [mkNode "1"; mkNode "2"; mkNode "3"] [mkEdge "1" "2"]
  ∧ (0 < length [mkEdge "1" "2"])
  ∧ (mkNode "3" ∈ [mkNode "1"; mkNode "2"; mkNode "3"])
  ∧ (node_id (mkNode "3") ∉ connectedNodes [mkEdge "1" "2"])
  ∧ disconnectedWarning
    ∈ warnings (validate [mkNode "1"; mkNode "2"; mkNode "3"] [mkEdge "1" "2"]).
Proof.
  assert (Hwf : noDangling [mkNode "1"; mkNode "2"; mkNode "3"] [mkEdge "1" "2"]).
  { apply noDangling_Forall. unfold present. repeat constructor. }
  assert (Hlen : 0 < length [mkEdge "1" "2"]) by (simpl; lia).
  assert (Hin : mkNode "3" ∈ [mkNode "1"; mkNode "2"; mkNode "3"])
    by (right; right; by left).
  assert (Hout : node_id (mkNode "3") ∉ connectedNodes [mkEdge "1" "2"]).
  { apply (bool_decide_unpack _). by vm_compute. }
  split; [done|]. split; [done|]. split; [done|]. split; [done|].
  by apply (validate_isolated_node _ _ (mkNode "3")).
Defined.

Lemma edgeRel_ends edges x y : edgeRel edges x y ↔ (x, y) ∈ ends <$> edges.
Proof.
  unfold edgeRel, ends. rewrite list_elem_of_fmap. split.
  - intros (e & He & <- & <-). eauto.
  - intros (e & [= -> ->] & He). eauto.
Qed.

Lemma reachableCycle_ends nodes edges nodes' edges' :
  node_id <$> nodes ≡ₚ node_id <$> nodes' →
  ends <$> edges ≡ₚ ends <$> edges' →
  reachableCycle nodes edges → reachableCycle nodes' edges'.
Proof.
  intros Hnodes Hedges (node & x & Hnode & Hpath & Hcyc).
  assert (Hrel : ∀ a b, edgeRel edges a b → edgeRel edges' a b).
  { intros a b. rewrite !edgeRel_ends. by rewrite Hedges. }
  assert (Hid : node_id node ∈ node_id <$> nodes') .
  { rewrite <- Hnodes. by apply list_elem_of_fmap_2. }
  apply list_elem_of_fmap in Hid as (node' & Hid & Hnode').
  exists node', x. rewrite <- Hid. split; [done|]. split.
  - by eapply rtc_subrel.
  - by eapply tc_subrel.
Qed.

Lemma selfReferential_ends edges :
  length (filter (λ edge, edge_source edge = edge_target edge) edges)
  = length (filter (λ p : string * string, p.1 = p.2) (ends <$> edges)).
Proof.
  induction edges as [|e edges IH]; [done|].
  rewrite fmap_cons, !filter_cons. unfold ends at 1. simpl.
  destruct (decide (edge_source e = edge_target e)); simpl; by rewrite IH.
Qed.

Lemma connectedNodes_ends edges edges' :
  ends <$> edges ≡ₚ ends <$> edges' →
  connectedNodes edges = connectedNodes edges'.
Proof.
  intros Hedges. apply set_eq. intros x. rewrite !elem_of_connectedNodes.
  assert (Hends : ∀ l : list Edge, (∃ edge, edge ∈ l
                          ∧ (edge_source edge = x ∨ edge_target edge = x))
                       ↔ ∃ p, p ∈ ends <$> l ∧ (p.1 = x ∨ p.2 = x)).
  { intros l. split.
    - intros (e & He & Hx). exists (ends e). split; [|done].
      by apply list_elem_of_fmap_2.
    - intros (p & Hp & Hx). apply list_elem_of_fmap in Hp as (e & -> & He).
      eauto. }
  rewrite !Hends. by setoid_rewrite Hedges.
Qed.

(** X7.  The report depends on the ids of the nodes and on the ends of
    the edges only, and not on their order: two graphs with the same ids
    and the same ends, in any order, get the same report. *)
Theorem validate_order_independent nodes edges nodes' edges' :
  node_id <$> nodes ≡ₚ node_id <$> nodes' →
  ends <$> edges ≡ₚ ends <$> edges' →
  validate nodes edges = validate nodes' edges'.
Proof.
  intros Hnodes Hedges.
  assert (Hln : length nodes = length nodes').
  { apply Permutation_length in Hnodes. by rewrite !length_fmap in Hnodes. }
  assert (Hle : length edges = length edges').
  { apply Permutation_length in Hedges. by rewrite !length_fmap in Hedges. }
  assert (Hcyc : hasCycle nodes edges = hasCycle nodes' edges').
  { apply Bool.eq_iff_eq_true. rewrite !hasCycle_true.
    split; by apply reachableCycle_ends. }
  assert (Hself : length (filter (λ edge, edge_source edge = edge_target edge) edges)
                  = length (filter (λ edge, edge_source edge = edge_target edge) edges')).
  { rewrite !selfReferential_ends. apply Permutation_length. by rewrite Hedges. }
  unfold validate.
  rewrite Hln, Hle, Hcyc, Hself, (connectedNodes_ends edges edges' Hedges).
  done.
Qed.

Lemma validate_order_independent_witness :
  node_id <$> [mkNode "1"; mkNode "2"; mkNode "3"]
    ≡ₚ node_id <$> [mkNode "3"; mkNode "1"; mkNode "2"]
  ∧ ends <$> [mkEdge "1" "2"; mkEdge "2" "3"]
    ≡ₚ ends <$> [mkEdge "2" "3"; mkEdge "1" "2"]
  ∧ validate [mkNode "1"; mkNode "2"; mkNode "3"] [mkEdge "1" "2"; mkEdge "2" "3"]
    = validate [mkNode "3"; mkNode "1"; mkNode "2"] [mkEdge "2" "3"; mkEdge "1" "2"].
Proof.
  assert (Hn : node_id <$> [mkNode "1"; mkNode "2"; mkNode "3"]
               ≡ₚ node_id <$> [mkNode "3"; mkNode "1"; mkNode "2"]).
  { simpl. change ["3"; "1"; "2"] with (["3"] ++ ["1"; "2"]).
    change ["1"; "2"; "3"] with (["1"; "2"] ++ ["3"]).
    apply Permutation_app_comm. }
  assert (He : ends <$> [mkEdge "1" "2"; mkEdge "2" "3"]
               ≡ₚ ends <$> [mkEdge "2" "3"; mkEdge "1" "2"]).
  { simpl. apply Permutation_swap. }
  split; [done|]. split; [done|]. by apply validate_order_independent.
Defined.

(** ** Connecting, adding and deleting *)

(** A path of the graph with one more edge from [s] to [t] is a path of
    the graph, or it goes through the new edge. *)
(** The edges after [onConnect]: those before, or those before and the
    new one, which the search then found to close no cycle. *)
Lemma onConnect_edges params ed :
  st_edges (onConnect params ed).1 = st_edges ed
  ∨ (st_edges (onConnect params ed).1
     = st_edges ed ++ [mkEdge (conn_source params) (conn_target params)]
     ∧ ¬ reachableCycle (st_nodes ed)
           (st_edges ed
            ++ [mkEdge (conn_source params) (conn_target params)])).
Proof.
  destruct (decide (conn_source params = conn_target params)) as [Heq|Hne].
  { left. unfold onConnect, isValidConnection. by rewrite decide_True. }
  destruct (onConnect_cases params ed Hne) as [[Hacc Hno]|[Hrej _]].
  - right. unfold accepted in Hacc. by rewrite Hacc.
  - left. unfold rejected in Hrej. by rewrite Hrej.
Qed.

(** X8.  Connecting keeps the graph acyclic when one end of the
    connection is a node of the node collection, also with dangling
    edges around: the edges after [onConnect] have no directed cycle if
    the edges before had none. *)
Theorem onConnect_keeps_acyclic params ed :
  ¬ hasDirectedCycle (st_edges ed) →
  present (st_nodes ed) (conn_source params)
  ∨ present (st_nodes ed) (conn_target params) →
  ¬ hasDirectedCycle (st_edges (onConnect params ed).1).
Proof.
  intros Hacyclic Hpresent.
  destruct (onConnect_edges params ed) as [Hsame|[Hadded Hno]].
  - by rewrite Hsame.
  - rewrite Hadded. by apply (new_edge_acyclic (st_nodes ed)).
Qed.

Lemma onConnect_keeps_acyclic_witness :
  ¬ hasDirectedCycle (st_edges chain123)
  ∧ (present (st_nodes chain123) "3" ∨ present (st_nodes chain123) "1")
  ∧ ¬ hasDirectedCycle
      (st_edges (onConnect {| conn_source := "3"; conn_target := "1" |}
                           chain123).1).
Proof.
  assert (Hwf : noDangling (st_nodes chain123) (st_edges chain123)).
  { apply noDangling_Forall. unfold present. repeat constructor. }
  assert (Hacyclic : ¬ hasDirectedCycle (st_edges chain123)).
  { intros Hcyc. apply (directed_reachableCycle _ _ Hwf), hasCycle_true in Hcyc.
    by vm_compute in Hcyc. }
  assert (Hpresent : present (st_nodes chain123) "3"
                     ∨ present (st_nodes chain123) "1").
  { left. unfold present. right; right; by left. }
  split; [done|]. split; [done|].
  by apply (onConnect_keeps_acyclic {| conn_source := "3"; conn_target := "1" |}).
Defined.

(** X9.  While the report shows the cycle error, every connection is
    rejected, whatever its ends, and the editor stays as it is. *)
Theorem onConnect_blocked_by_cycle params ed :
  cycleError ∈ errors (validate (st_nodes ed) (st_edges ed)) →
  onConnect params ed = (ed, Some cycleToast).
Proof.
  rewrite cycleError_reachableCycle. intros Hcyc.
  unfold onConnect, isValidConnection. case_decide; [done|].
  assert (Hw : wouldCreateCycle (st_nodes ed) (st_edges ed)
                 (conn_source params) (conn_target params) = true).
  { apply wouldCreateCycle_true.
    eapply reachableCycle_more; [| |exact Hcyc].
    - intros node Hnode. by apply list_elem_of_fmap_2.
    - intros x y Hxy. apply edgeRel_app. by left. }
  by rewrite Hw.
Qed.

Lemma onConnect_blocked_by_cycle_witness :
  cycleError ∈ errors (validate [mkNode "1"; mkNode "2"; mkNode "3"]
                                [mkEdge "1" "2"; mkEdge "2" "1"])
  ∧ onConnect {| conn_source := "1"; conn_target := "3" |}
      {| st_nodes := [mkNode "1"; mkNode "2"; mkNode "3"];
         st_edges := [mkEdge "1" "2"; mkEdge "2" "1"];
         nodeIdCounter := Int 4 |}
    = ({| st_nodes := [mkNode "1"; mkNode "2"; mkNode "3"];
          st_edges := [mkEdge "1" "2"; mkEdge "2" "1"];
          nodeIdCounter := Int 4 |}, Some cycleToast).
Proof.
  assert (Hcyc : cycleError ∈ errors (validate [mkNode "1"; mkNode "2"; mkNode "3"]
                                               [mkEdge "1" "2"; mkEdge "2" "1"])).
  { apply (bool_decide_unpack _). by vm_compute. }
  split; [done|].
  by apply (onConnect_blocked_by_cycle {| conn_source := "1"; conn_target := "3" |}
              {| st_nodes := [mkNode "1"; mkNode "2"; mkNode "3"];
                 st_edges := [mkEdge "1" "2"; mkEdge "2" "1"];
                 nodeIdCounter := Int 4 |}).
Defined.

(** X10.  The search of the editor and the search of the validation
    agree: [wouldCreateCycle] answers for a proposed edge what [hasCycle]
    answers for the graph with that edge appended. *)
Theorem wouldCreateCycle_hasCycle nodes edges s t :
  wouldCreateCycle nodes edges s t = hasCycle nodes (edges ++ [mkEdge s t]).
Proof.
  apply Bool.eq_iff_eq_true. by rewrite wouldCreateCycle_true, hasCycle_true.
Qed.

(** X11.  Connecting never brings the cycle error into the report: if
    the report of the editor after [onConnect] has it, the report before
    had it. *)
Theorem onConnect_no_new_cycle_error params ed :
  cycleError ∈ errors (validate (st_nodes (onConnect params ed).1)
                                (st_edges (onConnect params ed).1)) →
  cycleError ∈ errors (validate (st_nodes ed) (st_edges ed)).
Proof.
  unfold onConnect, isValidConnection. case_decide; [done|].
  destruct (wouldCreateCycle _ _ _ _) eqn:Hw; cbn [negb fst st_nodes st_edges];
    [done|].
  rewrite cycleError_errors. unfold addEdge.
  intros Hh%hasCycle_true%wouldCreateCycle_true. congruence.
Qed.

Lemma onConnect_no_new_cycle_error_witness :
  cycleError ∈ errors (validate
      (st_nodes (onConnect {| conn_source := "1"; conn_target := "3" |}
         {| st_nodes := [mkNode "1"; mkNode "2"; mkNode "3"];
            st_edges := [mkEdge "1" "2"; mkEdge "2" "1"];
            nodeIdCounter := Int 4 |}).1)
      (st_edges (onConnect {| conn_source := "1"; conn_target := "3" |}
         {| st_nodes := [mkNode "1"; mkNode "2"; mkNode "3"];
            st_edges := [mkEdge "1" "2"; mkEdge "2" "1"];
            nodeIdCounter := Int 4 |}).1))
  ∧ cycleError ∈ errors (validate [mkNode "1"; mkNode "2"; mkNode "3"]
                                  [mkEdge "1" "2"; mkEdge "2" "1"]).
Proof.
  assert (Hafter : cycleError ∈ errors (validate
      (st_nodes (onConnect {| conn_source := "1"; conn_target := "3" |}
         {| st_nodes := [mkNode "1"; mkNode "2"; mkNode "3"];
            st_edges := [mkEdge "1" "2"; mkEdge "2" "1"];
            nodeIdCounter := Int 4 |}).1)
      (st_edges (onConnect {| conn_source := "1"; conn_target := "3" |}
         {| st_nodes := [mkNode "1"; mkNode "2"; mkNode "3"];
            st_edges := [mkEdge "1" "2"; mkEdge "2" "1"];
            nodeIdCounter := Int 4 |}).1))).
  { apply (bool_decide_unpack _). by vm_compute. }
  split; [done|].
  by apply (onConnect_no_new_cycle_error _ _ Hafter).
Defined.

Lemma hasDirectedCycle_more edges edges' :
  (∀ x y, edgeRel edges x y → edgeRel edges' x y) →
  hasDirectedCycle edges → hasDirectedCycle edges'.
Proof. intros Hsub (x & Hcyc). exists x. by eapply tc_subrel. Qed.

Lemma edgeRel_handleKeyDown ed x y :
  edgeRel (st_edges (handleKeyDown ed)) x y → edgeRel (st_edges ed) x y.
Proof.
  destruct (handleKeyDown_filters ed) as (_ & -> & _).
  intros (e & He & Hs & Ht). apply list_elem_of_filter in He as [_ He]. by exists e.
Qed.

Lemma edgeRel_select nodeIds edgeIds ed x y :
  edgeRel (st_edges (select nodeIds edgeIds ed)) x y ↔ edgeRel (st_edges ed) x y.
Proof.
  unfold select, edgeRel. simpl. setoid_rewrite list_elem_of_fmap. split.
  - intros (e' & (e & -> & He) & Hs & Ht). by exists e.
  - intros (e & He & Hs & Ht). eexists. split; [by exists e|done].
Qed.

Lemma step_keeps_acyclic bigToString layout ed op :
  keepsEdges layout →
  match op with
  | ConnectNodes params =>
      present (st_nodes ed) (conn_source params)
      ∨ present (st_nodes ed) (conn_target params)
  | _ => True
  end →
  ¬ hasDirectedCycle (st_edges ed) →
  ¬ hasDirectedCycle (st_edges (step bigToString layout ed op)).
Proof.
  intros Hlayout Hop Hacyclic.
  destruct op as [label rx ry|params|nodeIds edgeIds|[]|]; simpl.
  - done.
  - destruct (onConnect_edges params ed) as [Hsame|[Hadded Hno]].
    + by rewrite Hsame.
    + rewrite Hadded. by apply (new_edge_acyclic (st_nodes ed)).
  - intros Hcyc. apply Hacyclic. revert Hcyc. apply hasDirectedCycle_more.
    intros x y Hxy. unfold deleteSelection in Hxy.
    by apply edgeRel_handleKeyDown, edgeRel_select in Hxy.
  - intros (x & Hcyc). apply tc_source in Hcyc as (e & He & _).
    by apply elem_of_nil in He.
  - done.
  - intros Hcyc. apply Hacyclic. revert Hcyc. apply hasDirectedCycle_more.
    intros x y. unfold onAutoLayout.
    specialize (Hlayout (st_nodes ed) (st_edges ed) x y).
    destruct (layout (st_nodes ed) (st_edges ed)). exact Hlayout.
Qed.

(** X12.  The editor never builds a cycle.  In a session whose
    connections each have an end at a node that is there, with a layout
    that invents no edge, a graph without directed cycle stays without
    directed cycle through adding, connecting, deleting, clearing and
    laying out, and its report never shows the cycle error. *)
Theorem session_keeps_acyclic bigToString layout ops : ∀ ed,
  keepsEdges layout →
  ¬ hasDirectedCycle (st_edges ed) →
  connectsPresent bigToString layout ed ops →
  ¬ hasDirectedCycle (st_edges (run bigToString layout ed ops))
  ∧ cycleError ∉ errors (validate (st_nodes (run bigToString layout ed ops))
                                  (st_edges (run bigToString layout ed ops))).
Proof.
  intros ed Hlayout Hacyclic Hops.
  assert (Hfinal : ¬ hasDirectedCycle (st_edges (run bigToString layout ed ops))).
  { revert ed Hacyclic Hops. unfold run.
    induction ops as [|op ops IH]; intros ed Hacyclic Hops; [done|].
    destruct Hops as [Hop Hrest]. simpl. apply IH; [|done].
    by apply step_keeps_acyclic. }
  split; [done|]. rewrite cycleError_reachableCycle.
  intros Hcyc. apply Hfinal. by eapply reachableCycle_directed.
Qed.

Lemma session_keeps_acyclic_witness :
  keepsEdges noLayout
  ∧ ¬ hasDirectedCycle (st_edges initialEditor)
  ∧ connectsPresent plainDigits noLayout initialEditor
      [AddNode "A" 0 0; AddNode "B" 0 0;
       ConnectNodes {| conn_source := "1"; conn_target := "2" |};
       ConnectNodes {| conn_source := "2"; conn_target := "1" |};
       DeleteSelection ["1"] []; AutoLayout;
       ConnectNodes {| conn_source := "2"; conn_target := "1" |}]
  ∧ ends <$> st_edges (run plainDigits noLayout initialEditor
      [AddNode "A" 0 0; AddNode "B" 0 0;
       ConnectNodes {| conn_source := "1"; conn_target := "2" |};
       ConnectNodes {| conn_source := "2"; conn_target := "1" |};
       DeleteSelection ["1"] []; AutoLayout;
       ConnectNodes {| conn_source := "2"; conn_target := "1" |}])
    = [("1", "2")]
  ∧ ¬ hasDirectedCycle (st_edges (run plainDigits noLayout initialEditor
      [AddNode "A" 0 0; AddNode "B" 0 0;
       ConnectNodes {| conn_source := "1"; conn_target := "2" |};
       ConnectNodes {| conn_source := "2"; conn_target := "1" |};
       DeleteSelection ["1"] []; AutoLayout;
       ConnectNodes {| conn_source := "2"; conn_target := "1" |}])).
Proof.
  assert (Hlayout : keepsEdges noLayout) by (by intros nodes edges x y).
  assert (Hacyclic : ¬ hasDirectedCycle (st_edges initialEditor)).
  { intros (x & Hcyc). apply tc_source in Hcyc as (e & He & _).
    by apply elem_of_nil in He. }
  assert (Hops : connectsPresent plainDigits noLayout initialEditor
      [AddNode "A" 0 0; AddNode "B" 0 0;
       ConnectNodes {| conn_source := "1"; conn_target := "2" |};
       ConnectNodes {| conn_source := "2"; conn_target := "1" |};
       DeleteSelection ["1"] []; AutoLayout;
       ConnectNodes {| conn_source := "2"; conn_target := "1" |}]).
  { cbn [connectsPresent]. split_and!; try done.
    - left. apply (bool_decide_unpack _). by vm_compute.
    - left. apply (bool_decide_unpack _). by vm_compute.
    - left. apply (bool_decide_unpack _). by vm_compute. }
  split; [done|]. split; [done|]. split; [done|]. split; [by vm_compute|].
  by apply (session_keeps_acyclic plainDigits noLayout _ initialEditor Hlayout Hacyclic Hops).
Defined.

Lemma keepsEdges_computeLayout hgap vgap : keepsEdges (computeLayout hgap vgap).
Proof. by intros nodes edges x y. Qed.

Lemma filter_not_then {A} (P : A → Prop) `{∀ x, Decision (P x)} (l : list A) :
  filter P (filter (λ x, ¬ P x) l) = [].
Proof.
  induction l as [|x l IH]; [done|]. rewrite filter_cons.
  destruct (decide (¬ P x)); [|done]. rewrite filter_cons.
  by rewrite decide_False.
Qed.

(** X13.  After the delete key nothing is selected any more, and a second
    press changes nothing. *)
Theorem handleKeyDown_idempotent ed :
  filter (λ node, node_selected node) (st_nodes (handleKeyDown ed)) = []
  ∧ filter (λ edge, edge_selected edge) (st_edges (handleKeyDown ed)) = []
  ∧ handleKeyDown (handleKeyDown ed) = handleKeyDown ed.
Proof.
  destruct (handleKeyDown_filters ed) as (Hn & He & _).
  assert (Hnodes : filter (λ node, node_selected node)
                     (st_nodes (handleKeyDown ed)) = []).
  { rewrite Hn. apply (filter_not_then (λ node, node_selected node)). }
  assert (Hedges : filter (λ edge, edge_selected edge)
                     (st_edges (handleKeyDown ed)) = []).
  { rewrite He. apply (filter_not_then (λ edge, edge_selected edge)). }
  split; [done|]. split; [done|].
  unfold handleKeyDown at 1. rewrite Hnodes, Hedges.
  rewrite decide_False; [done|]. simpl. lia.
Qed.

(** X14.  Deleting never adds an error to the report: an error of the
    report after the delete key was in the report before. *)
Theorem handleKeyDown_no_new_error ed err :
  err ∈ errors (validate (st_nodes (handleKeyDown ed)) (st_edges (handleKeyDown ed))) →
  err ∈ errors (validate (st_nodes ed) (st_edges ed)).
Proof.
  intros Herr.
  assert (Hcases : err = cycleError ∨ err = selfReferenceError).
  { destruct (errors_cases (st_nodes (handleKeyDown ed))
                           (st_edges (handleKeyDown ed)))
      as [Hs|[Hs|[Hs|Hs]]]; rewrite Hs in Herr;
      rewrite ?elem_of_cons, ?elem_of_nil in Herr; tauto. }
  destruct (handleKeyDown_filters ed) as (Hn & He & _).
  destruct Hcases as [-> | ->].
  - rewrite cycleError_reachableCycle in *. revert Herr.
    apply reachableCycle_more.
    + intros node Hnode. rewrite Hn in Hnode.
      apply list_elem_of_filter in Hnode as [_ Hnode].
      by apply list_elem_of_fmap_2.
    + apply edgeRel_handleKeyDown.
  - rewrite selfReferenceError_errors in *.
    destruct Herr as (e & Hin & Hself). rewrite He in Hin.
    apply list_elem_of_filter in Hin as [_ Hin]. eauto.
Qed.

Lemma handleKeyDown_no_new_error_witness :
  cycleError ∈ errors (validate
      (st_nodes (handleKeyDown
         {| st_nodes := [mkNode "1"; mkNode "2"; mkNode "3"];
            st_edges := [mkEdge "1" "2"; mkEdge "2" "1"];
            nodeIdCounter := Int 4 |}))
      (st_edges (handleKeyDown
         {| st_nodes := [mkNode "1"; mkNode "2"; mkNode "3"];
            st_edges := [mkEdge "1" "2"; mkEdge "2" "1"];
            nodeIdCounter := Int 4 |})))
  ∧ cycleError ∈ errors (validate [mkNode "1"; mkNode "2"; mkNode "3"]
                                  [mkEdge "1" "2"; mkEdge "2" "1"]).
Proof.
  assert (Hafter : cycleError ∈ errors (validate
      (st_nodes (handleKeyDown
         {| st_nodes := [mkNode "1"; mkNode "2"; mkNode "3"];
            st_edges := [mkEdge "1" "2"; mkEdge "2" "1"];
            nodeIdCounter := Int 4 |}))
      (st_edges (handleKeyDown
         {| st_nodes := [mkNode "1"; mkNode "2"; mkNode "3"];
            st_edges := [mkEdge "1" "2"; mkEdge "2" "1"];
            nodeIdCounter := Int 4 |})))).
  { apply (bool_decide_unpack _). by vm_compute. }
  split; [done|].
  by apply (handleKeyDown_no_new_error _ _ Hafter).
Defined.

(** X15.  A new node is placed in the square from 100 to 500: with the
    two random draws in the interval from 0 to 1, 1 excluded, both
    coordinates are at least 100 and less than 500; its id is the
    counter, also in its data, and it comes last. *)
Theorem onAddNode_position bigToString label rx ry ed :
  (0 <= rx)%Q → (rx < 1)%Q → (0 <= ry)%Q → (ry < 1)%Q →
  ∃ node,
    st_nodes (onAddNode bigToString label rx ry ed) = st_nodes ed ++ [node]
    ∧ node_id node = toString bigToString (nodeIdCounter ed)
    ∧ data_id (node_data node) = node_id node
    ∧ data_label (node_data node) = label
    ∧ (100 <= pos_x (node_position node))%Q
    ∧ (pos_x (node_position node) < 500)%Q
    ∧ (100 <= pos_y (node_position node))%Q
    ∧ (pos_y (node_position node) < 500)%Q.
Proof.
  intros Hx0 Hx1 Hy0 Hy1. eexists. split; [reflexivity|]. simpl.
  split_and!; try done; lra.
Qed.

Lemma onAddNode_position_witness :
  (0 <= 1 # 2)%Q ∧ (1 # 2 < 1)%Q ∧ (0 <= 0)%Q ∧ (0 < 1)%Q
  ∧ ∃ node,
      st_nodes (onAddNode plainDigits "A" (1 # 2) 0 initialEditor) = [] ++ [node]
      ∧ node_id node = "1"
      ∧ (100 <= pos_x (node_position node))%Q
      ∧ (pos_x (node_position node) < 500)%Q.
Proof.
  assert (H1 : (0 <= 1 # 2)%Q) by done.
  assert (H2 : (1 # 2 < 1)%Q) by done.
  assert (H3 : (0 <= 0)%Q) by done.
  assert (H4 : (0 < 1)%Q) by done.
  split; [done|]. split; [done|]. split; [done|]. split; [done|].
  destruct (onAddNode_position plainDigits "A" (1 # 2) 0 initialEditor H1 H2 H3 H4)
    as (node & Hnodes & Hid & _ & _ & Hxlo & Hxhi & _).
  exists node. split; [done|]. split; [done|]. split; done.
Defined.

(** X16.  In a graph without dangling edge, adding a node leaves the
    errors of the report as they are. *)
Theorem onAddNode_same_errors bigToString label rx ry ed :
  noDangling (st_nodes ed) (st_edges ed) →
  errors (validate (st_nodes (onAddNode bigToString label rx ry ed))
                   (st_edges (onAddNode bigToString label rx ry ed)))
  = errors (validate (st_nodes ed) (st_edges ed)).
Proof.
  intros Hwf. cbn [onAddNode st_nodes st_edges].
  assert (Hcyc : hasCycle (st_nodes ed ++ [
            {| node_id := toString bigToString (nodeIdCounter ed); node_type := "custom";
               node_position := {| pos_x := rx * 400 + 100;
                                   pos_y := ry * 400 + 100 |};
               node_data := {| data_label := label;
                               data_id := toString bigToString (nodeIdCounter ed) |};
               node_selected := false |}]) (st_edges ed)
                 = hasCycle (st_nodes ed) (st_edges ed)).
  { apply Bool.eq_iff_eq_true. rewrite !hasCycle_true. split.
    - intros Hcyc. apply directed_reachableCycle; [done|].
      by eapply reachableCycle_directed.
    - apply reachableCycle_more; [|done].
      intros node Hnode. apply list_elem_of_fmap_2, elem_of_app. by left. }
  unfold validate. simpl. by rewrite Hcyc.
Qed.

Lemma onAddNode_same_errors_witness :
  noDangling (st_nodes chain123) (st_edges chain123)
  ∧ errors (validate (st_nodes (onAddNode plainDigits "D" 0 0 chain123))
                     (st_edges (onAddNode plainDigits "D" 0 0 chain123)))
    = errors (validate (st_nodes chain123) (st_edges chain123)).
Proof.
  assert (Hwf : noDangling (st_nodes chain123) (st_edges chain123)).
  { apply noDangling_Forall. unfold present. repeat constructor. }
  split; [done|]. by apply onAddNode_same_errors.
Defined.

(** ** The undo history *)

Lemma slice0_take {A} (l : list A) (e : Z) :
  (0 ≤ e)%Z → slice0 l e = take (Z.to_nat e) l.
Proof. intros. unfold slice0. by rewrite (proj2 (Z.ltb_ge _ _)). Qed.

Lemma item_lookup {A} (l : list A) (i : Z) :
  (0 ≤ i)%Z → item l i = l !! Z.to_nat i.
Proof. intros. unfold item. by rewrite (proj2 (Z.ltb_ge _ _)). Qed.

Lemma tail_length {A} (l : list A) : length (tail l) = length l - 1.
Proof. destruct l; simpl; lia. Qed.

Lemma historyInv_useHistory nodes edges now :
  historyInv (useHistory nodes edges now).
Proof. unfold historyInv, MAX_HISTORY_SIZE. simpl. lia. Qed.

(** Below the bound a push cuts the array after the current snapshot and
    appends the new one, which becomes the current one. *)
Lemma pushToHistory_below nodes edges now h :
  historyInv h → (currentIndex h < 49)%Z →
  pushToHistory nodes edges now h =
  {| history := take (S (Z.to_nat (currentIndex h))) (history h)
                ++ [{| hs_nodes := nodes; hs_edges := edges;
                       hs_timestamp := now |}];
     currentIndex := (currentIndex h + 1)%Z |}.
Proof.
  intros [Hlen Hidx] Hlt. unfold pushToHistory.
  rewrite slice0_take by lia.
  replace (Z.to_nat (currentIndex h + 1)) with (S (Z.to_nat (currentIndex h)))
    by lia.
  unfold MAX_HISTORY_SIZE in *.
  rewrite decide_False.
  - f_equal. rewrite length_app, length_take. cbn [length]. lia.
  - rewrite length_app, length_take. cbn [length]. lia.
Qed.

(** At the bound the oldest snapshot is dropped and the index is moved
    one down. *)
Lemma pushToHistory_full nodes edges now h :
  historyInv h → currentIndex h = 49%Z →
  pushToHistory nodes edges now h =
  {| history := tail (history h)
                ++ [{| hs_nodes := nodes; hs_edges := edges;
                       hs_timestamp := now |}];
     currentIndex := 48 |}.
Proof.
  intros [Hlen Hidx] Heq. unfold pushToHistory, MAX_HISTORY_SIZE in *.
  rewrite slice0_take by lia.
  rewrite take_ge by lia.
  rewrite decide_True by (rewrite length_app; cbn [length]; lia).
  rewrite Heq. f_equal.
  destruct (history h); [simpl in *; lia|done].
Qed.

Lemma historyInv_pushToHistory nodes edges now h :
  historyInv h → historyInv (pushToHistory nodes edges now h).
Proof.
  intros Hinv. destruct (decide (currentIndex h < 49)%Z) as [Hlt|Hge].
  - rewrite pushToHistory_below by done.
    destruct Hinv as [Hlen Hidx]. unfold historyInv, MAX_HISTORY_SIZE in *.
    cbn [history currentIndex]. rewrite length_app, length_take.
    cbn [length]. lia.
  - assert (currentIndex h = 49%Z) as Heq.
    { destruct Hinv as [Hlen Hidx]. unfold MAX_HISTORY_SIZE in *. lia. }
    rewrite pushToHistory_full by done.
    destruct Hinv as [Hlen Hidx]. unfold historyInv, MAX_HISTORY_SIZE in *.
    cbn [history currentIndex]. rewrite length_app, tail_length.
    cbn [length]. lia.
Qed.

Lemma historyInv_undo h : historyInv h → historyInv (undo h).2.
Proof.
  intros [Hlen Hidx]. unfold undo.
  destruct (0 <? currentIndex h)%Z eqn:Hpos; [|done].
  apply Z.ltb_lt in Hpos. unfold historyInv. simpl. lia.
Qed.

Lemma historyInv_redo h : historyInv h → historyInv (redo h).2.
Proof.
  intros [Hlen Hidx]. unfold redo.
  destruct (_ <? _)%Z eqn:Hpos; [|done].
  apply Z.ltb_lt in Hpos. unfold historyInv. simpl. lia.
Qed.

Lemma historyInv_step h op : historyInv h → historyInv (historyStep h op).
Proof.
  destruct op; simpl;
    auto using historyInv_pushToHistory, historyInv_undo, historyInv_redo.
Qed.

Lemma historyInv_run ops h : historyInv h → historyInv (historyRun ops h).
Proof.
  revert h. induction ops as [|op ops IH]; intros h Hinv; [done|].
  apply IH, historyInv_step, Hinv.
Qed.

Lemma historyInv_current h :
  historyInv h → is_Some (currentState h).
Proof.
  intros [Hlen Hidx]. unfold currentState. rewrite item_lookup by lia.
  apply lookup_lt_is_Some. lia.
Qed.

(** X17 ([useHistory]): whatever is pushed, undone and redone, the array
    holds between one and fifty snapshots, the index points at one of
    them, and so there is always a current snapshot. *)
Theorem history_bounded nodes edges now ops :
  let h := historyRun ops (useHistory nodes edges now) in
  1 ≤ length (history h) ≤ 50 ∧
  (0 ≤ currentIndex h < Z.of_nat (length (history h)))%Z ∧
  is_Some (currentState h).
Proof.
  intros h.
  assert (historyInv h) as Hinv
    by apply historyInv_run, historyInv_useHistory.
  split_and!; [|apply Hinv| |apply Hinv|by apply historyInv_current].
  - destruct Hinv as [_ ?]. lia.
  - apply Hinv.
Qed.

(** X18 ([pushToHistory], [undo]): below the bound, a push makes the new
    snapshot the current one and leaves nothing to redo, and the undo
    that follows returns the snapshot that was current before the push. *)
Theorem undo_pushToHistory nodes edges now h :
  historyInv h → (currentIndex h < 49)%Z →
  let h' := pushToHistory nodes edges now h in
  currentState h' = Some {| hs_nodes := nodes; hs_edges := edges;
                            hs_timestamp := now |} ∧
  canRedo h' = false ∧
  canUndo h' = true ∧
  (undo h').1 = currentState h ∧
  currentIndex (undo h').2 = currentIndex h.
Proof.
  intros Hinv Hlt h'. unfold h'. rewrite pushToHistory_below by done.
  destruct Hinv as [Hlen Hidx].
  assert (length (take (S (Z.to_nat (currentIndex h))) (history h))
          = S (Z.to_nat (currentIndex h))) as Htake
    by (rewrite length_take; lia).
  unfold currentState, canRedo, canUndo, undo. simpl.
  rewrite length_app, Htake. simpl.
  rewrite (proj2 (Z.ltb_lt 0 (currentIndex h + 1))) by lia. simpl.
  split_and!.
  - rewrite item_lookup by lia.
    replace (Z.to_nat (currentIndex h + 1))
      with (length (take (S (Z.to_nat (currentIndex h))) (history h)) + 0)
      by lia.
    by rewrite lookup_app_r, Nat.add_comm, Nat.add_sub by lia.
  - apply Z.ltb_ge. lia.
  - done.
  - rewrite !item_lookup by lia.
    replace (currentIndex h + 1 - 1)%Z with (currentIndex h) by lia.
    rewrite lookup_app_l by lia.
    rewrite lookup_take_lt by lia. done.
  - lia.
Qed.

Lemma undo_pushToHistory_witness :
  historyInv threeSnapshots ∧ (currentIndex threeSnapshots < 49)%Z ∧
  (undo (pushToHistory [] [] 3 threeSnapshots)).1
  = currentState threeSnapshots.
Proof.
  assert (historyInv threeSnapshots) as Hinv
    by (unfold historyInv, MAX_HISTORY_SIZE; simpl; lia).
  assert (currentIndex threeSnapshots < 49)%Z as Hlt by (simpl; lia).
  split_and!; [done..|].
  apply (undo_pushToHistory [] [] 3 threeSnapshots Hinv Hlt).
Defined.

(** X19 ([undo], [redo]): when there is something to undo, the undo
    returns the snapshot before the current one, and the redo that
    follows returns the current one and puts the hook back in the state
    it was in. *)
Theorem redo_undo h :
  historyInv h → canUndo h = true →
  (undo h).1 = item (history h) (currentIndex h - 1) ∧
  is_Some (undo h).1 ∧
  redo (undo h).2 = (currentState h, h).
Proof.
  intros [Hlen Hidx] Hcan. unfold canUndo in Hcan.
  unfold undo. rewrite Hcan. simpl.
  apply Z.ltb_lt in Hcan.
  split_and!; [done| |].
  - rewrite item_lookup by lia. apply lookup_lt_is_Some. lia.
  - unfold redo. simpl.
    rewrite (proj2 (Z.ltb_lt _ _)) by lia.
    unfold currentState.
    replace (currentIndex h - 1 + 1)%Z with (currentIndex h) by lia.
    by destruct h.
Qed.

Lemma redo_undo_witness :
  historyInv threeSnapshots ∧ canUndo threeSnapshots = true ∧
  redo (undo threeSnapshots).2 = (currentState threeSnapshots, threeSnapshots).
Proof.
  assert (historyInv threeSnapshots) as Hinv
    by (unfold historyInv, MAX_HISTORY_SIZE; simpl; lia).
  split_and!; [done..|].
  apply (redo_undo threeSnapshots Hinv eq_refl).
Defined.

(** X20 ([redo], [undo]): when there is something to redo, the redo
    returns the snapshot after the current one, and the undo that follows
    returns the current one and puts the hook back in the state it was
    in. *)
Theorem undo_redo h :
  historyInv h → canRedo h = true →
  (redo h).1 = item (history h) (currentIndex h + 1) ∧
  is_Some (redo h).1 ∧
  undo (redo h).2 = (currentState h, h).
Proof.
  intros [Hlen Hidx] Hcan. unfold canRedo in Hcan.
  unfold redo. rewrite Hcan. simpl.
  apply Z.ltb_lt in Hcan.
  split_and!; [done| |].
  - rewrite item_lookup by lia. apply lookup_lt_is_Some. lia.
  - unfold undo. simpl.
    rewrite (proj2 (Z.ltb_lt _ _)) by lia.
    unfold currentState.
    replace (currentIndex h + 1 - 1)%Z with (currentIndex h) by lia.
    by destruct h.
Qed.

Lemma undo_redo_witness :
  historyInv (undo threeSnapshots).2 ∧
  canRedo (undo threeSnapshots).2 = true ∧
  undo (redo (undo threeSnapshots).2).2
  = (currentState (undo threeSnapshots).2, (undo threeSnapshots).2).
Proof.
  assert (historyInv (undo threeSnapshots).2) as Hinv
    by (unfold historyInv, MAX_HISTORY_SIZE; simpl; lia).
  split_and!; [done..|].
  apply (undo_redo (undo threeSnapshots).2 Hinv eq_refl).
Defined.

(** X21 ([pushToHistory]): a push after an undo discards the snapshots
    that could have been redone: the array is cut after the current
    snapshot before the new one is appended. *)
Theorem pushToHistory_discards_redo nodes edges now h :
  historyInv h → canRedo h = true →
  let h' := pushToHistory nodes edges now h in
  history h' = take (S (Z.to_nat (currentIndex h))) (history h)
               ++ [{| hs_nodes := nodes; hs_edges := edges;
                      hs_timestamp := now |}] ∧
  length (history h') ≤ length (history h) ∧
  canRedo h' = false ∧
  (redo h').1 = None.
Proof.
  intros Hinv Hcan h'. unfold h'.
  pose proof Hinv as [Hlen Hidx]. unfold canRedo in Hcan.
  apply Z.ltb_lt in Hcan. unfold MAX_HISTORY_SIZE in Hlen.
  rewrite pushToHistory_below by (done || lia).
  unfold canRedo, redo. cbn [history currentIndex].
  rewrite length_app, length_take. cbn [length].
  rewrite (proj2 (Z.ltb_ge _ _)) by lia.
  split_and!; [done|lia|done..].
Qed.

Lemma pushToHistory_discards_redo_witness :
  historyInv (undo threeSnapshots).2 ∧
  canRedo (undo threeSnapshots).2 = true ∧
  canRedo (pushToHistory [] [] 3 (undo threeSnapshots).2) = false.
Proof.
  assert (historyInv (undo threeSnapshots).2) as Hinv
    by (unfold historyInv, MAX_HISTORY_SIZE; simpl; lia).
  split_and!; [done..|].
  apply (pushToHistory_discards_redo [] [] 3 (undo threeSnapshots).2 Hinv
           eq_refl).
Defined.

(** X22 ([pushToHistory]): when the fifty-first snapshot is pushed, the
    oldest one is dropped, but the index is moved to the last but one
    place: the current snapshot is still the one that was current before
    the push, and the pushed one is waiting as a redo. *)
Theorem pushToHistory_at_capacity nodes edges now h :
  historyInv h → currentIndex h = 49%Z →
  let snapshot := {| hs_nodes := nodes; hs_edges := edges;
                     hs_timestamp := now |} in
  let h' := pushToHistory nodes edges now h in
  history h' = tail (history h) ++ [snapshot] ∧
  length (history h') = 50 ∧
  currentIndex h' = 48%Z ∧
  currentState h' = currentState h ∧
  canRedo h' = true ∧
  (redo h').1 = Some snapshot.
Proof.
  intros Hinv Heq snapshot h'. unfold h'.
  rewrite pushToHistory_full by done.
  destruct Hinv as [Hlen Hidx]. unfold MAX_HISTORY_SIZE in Hlen.
  assert (length (history h) = 50) as Hfifty by lia.
  unfold currentState, canRedo, redo. simpl.
  rewrite length_app, tail_length, Hfifty. simpl.
  split_and!; [done..| |done|].
  - rewrite Heq, !item_lookup by lia.
    rewrite lookup_app_l by (rewrite tail_length; lia).
    by rewrite lookup_tail.
  - rewrite item_lookup by lia.
    replace (Z.to_nat (48 + 1)) with (length (tail (history h)) + 0)
      by (rewrite tail_length; lia).
    by rewrite lookup_app_r, Nat.add_comm, Nat.add_sub by lia.
Qed.

Lemma pushToHistory_at_capacity_witness :
  historyInv fullHistory ∧ currentIndex fullHistory = 49%Z ∧
  currentState (pushToHistory [mkNode "1"] [] 1 fullHistory)
  = currentState fullHistory.
Proof.
  assert (historyInv fullHistory) as Hinv
    by (unfold historyInv, MAX_HISTORY_SIZE; vm_compute; split_and!;
        [lia|discriminate|done]).
  assert (currentIndex fullHistory = 49%Z) as Heq by (by vm_compute).
  split_and!; [done..|].
  apply (pushToHistory_at_capacity [mkNode "1"] [] 1 fullHistory Hinv Heq).
Defined.

(** X23 ([onClear], [handleKeyDown], [onAddNode]): an undo restores nodes
    and edges but not the id counter.  After a clear, which resets the
    counter to 1, an undo that brings back a graph with a node "1" is
    followed by an added node with the same id. *)
Theorem undo_after_clear_reuses_id bigToString ed h s label rx ry :
  (undo h).1 = Some s → present (hs_nodes s) "1" →
  let eh := onUndo (onClear true ed, h) in
  st_nodes eh.1 = hs_nodes s ∧
  st_edges eh.1 = hs_edges s ∧
  nodeIdCounter eh.1 = Int 1 ∧
  ¬ NoDup (node_id <$> st_nodes (onAddNode bigToString label rx ry eh.1)).
Proof.
  intros Hundo Hpresent eh. unfold eh, onUndo. simpl. rewrite Hundo. simpl.
  split_and!; [done..|].
  rewrite fmap_app. simpl. intros Hnodup.
  apply NoDup_app in Hnodup as (_ & Hdisjoint & _).
  apply (Hdisjoint "1"); [done|apply list_elem_of_here].
Qed.

Lemma undo_after_clear_reuses_id_witness :
  (undo (pushToHistory [] [] 3 threeSnapshots)).1
  = Some {| hs_nodes := [mkNode "1"; mkNode "2"]; hs_edges := [];
            hs_timestamp := 2 |} ∧
  present [mkNode "1"; mkNode "2"] "1" ∧
  ¬ NoDup (node_id <$> st_nodes
             (onAddNode plainDigits "c" 0 0
                (onUndo (onClear true
                           {| st_nodes := [mkNode "1"; mkNode "2"];
                              st_edges := []; nodeIdCounter := Int 3 |},
                         pushToHistory [] [] 3 threeSnapshots)).1)).
Proof.
  assert (present [mkNode "1"; mkNode "2"] "1") as Hpresent.
  { apply list_elem_of_here. }
  split_and!; [done..|].
  apply (undo_after_clear_reuses_id plainDigits
           {| st_nodes := [mkNode "1"; mkNode "2"]; st_edges := [];
              nodeIdCounter := Int 3 |}
           (pushToHistory [] [] 3 threeSnapshots) _ "c" 0 0 eq_refl Hpresent).
Defined.


(** ** File import and graph loading *)

Lemma idNumber_None parseInt n :
  idNumber parseInt n = None ↔ idThrows parseInt n.
Proof.
  unfold idNumber, idThrows. split.
  - destruct n; try (by left);
      (destruct (callParseInt parseInt _); [by right|done..]).
  - intros [-> | Hthrows]; [done|]. rewrite Hthrows. by destruct n.
Qed.

(** [maxId] throws exactly when the evaluation for an element does. *)
Lemma maxId_None parseInt items :
  maxId parseInt (JArray items) = None
  ↔ ∃ n, n ∈ items ∧ idThrows parseInt n.
Proof.
  unfold maxId. destruct (mapM (idNumber parseInt) items) as [ids|] eqn:Hids.
  - split; [done|]. intros (n & Hn & Hthrows%idNumber_None).
    apply mapM_Some in Hids.
    apply list_elem_of_lookup in Hn as [i Hi].
    destruct (Forall2_lookup_l _ _ _ _ _ Hids Hi) as (v & _ & Hv). congruence.
  - split; [|done]. intros _.
    apply mapM_None, Exists_exists in Hids as (n & Hn & Hnone).
    exists n. split; [done|]. by apply idNumber_None.
Qed.

Lemma num_le_max_l a b : num_le a (num_max a b).
Proof. destruct a, b; simpl; lia. Qed.

Lemma num_le_max_r a b c : num_le a c → num_le a (num_max b c).
Proof. destruct a, b, c; simpl; lia. Qed.

(** The maximum bounds every element. *)
Lemma num_le_foldr_max ids v :
  v ∈ ids → num_le v (foldr num_max NegInfinity ids).
Proof.
  induction ids as [|w ids IH]; intros Hin; [by apply elem_of_nil in Hin|].
  apply elem_of_cons in Hin as [->|Hin]; simpl.
  - apply num_le_max_l.
  - by apply num_le_max_r, IH.
Qed.

Lemma maxId_bound parseInt items m n v :
  maxId parseInt (JArray items) = Some m →
  n ∈ items → idNumber parseInt n = Some v → num_le v m.
Proof.
  unfold maxId. destruct (mapM (idNumber parseInt) items) as [ids|] eqn:Hids;
    [|done].
  intros [= <-] Hn Hv. apply num_le_foldr_max.
  apply mapM_Some in Hids. apply list_elem_of_lookup in Hn as [i Hi].
  destruct (Forall2_lookup_l _ _ _ _ _ Hids Hi) as (w & Hw & Hnw).
  apply list_elem_of_lookup. exists i. congruence.
Qed.

(** Beyond [2^53] the nearest double is no smaller in size. *)
Lemma nearestDouble_big z y :
  (2 ^ 53 < Z.abs z)%Z → nearestDouble z = Int y →
  (2 ^ 53 ≤ Z.abs y)%Z ∧ (0 < z → 0 < y)%Z ∧ (z < 0 → y < 0)%Z.
Proof.
  intros Hz. unfold nearestDouble.
  rewrite (proj2 (Z.leb_gt _ _)) by lia. cbv zeta.
  set (n := Z.abs z). set (e := Z.log2 n).
  set (ulp := (2 ^ (e - 52))%Z). set (q := (n `div` ulp)%Z).
  assert (53 ≤ e)%Z as He.
  { unfold e. change 53%Z with (Z.log2 (2 ^ 53)). apply Z.log2_le_mono.
    unfold n. lia. }
  assert (0 < ulp)%Z as Hulp by (apply Z.pow_pos_nonneg; lia).
  assert (2 ^ e ≤ n)%Z as Hlow.
  { destruct (Z.log2_spec n) as [? _]; [unfold n; lia|done]. }
  assert (2 ^ e = 2 ^ 52 * ulp)%Z as Hsplit.
  { unfold ulp. rewrite <- Z.pow_add_r by lia. f_equal. lia. }
  assert (2 ^ 52 ≤ q)%Z as Hq.
  { unfold q. apply Z.div_le_lower_bound; lia. }
  assert (2 ^ 53 ≤ q * ulp)%Z as Hbig.
  { assert (2 ^ 53 ≤ 2 ^ e)%Z by (apply Z.pow_le_mono_r; lia). nia. }
  set (q' := if (2 * (n `mod` ulp) <? ulp)%Z then q
             else if (ulp <? 2 * (n `mod` ulp))%Z then (q + 1)%Z
             else if Z.even q then q else (q + 1)%Z).
  assert (q ≤ q')%Z as Hq' by (unfold q'; repeat case_match; lia).
  destruct (q' * ulp <? 2 ^ 1024)%Z; [|by destruct (z <? 0)%Z].
  intros [= <-].
  assert (2 ^ 53 ≤ q' * ulp)%Z by nia.
  assert (0 < z ∨ z < 0)%Z as [Hpos|Hneg] by lia.
  - rewrite (Z.sgn_pos z) by done. lia.
  - rewrite (Z.sgn_neg z) by done. lia.
Qed.

Lemma num_succ_Int_inv m c :
  num_succ m = Int c → (- 2 ^ 53 ≤ c < 2 ^ 53)%Z →
  ∃ M, m = Int M ∧ (M < c)%Z.
Proof.
  destruct m as [|z|]; [done| |done]. simpl. intros Hround Hc.
  exists z. split; [done|].
  destruct (decide (Z.abs (z + 1) ≤ 2 ^ 53)%Z) as [Hsafe|Hbig].
  - rewrite nearestDouble_safe in Hround by done. injection Hround. lia.
  - destruct (nearestDouble_big (z + 1) c) as (Hsize & Hpos & Hneg);
      [lia|done|]. lia.
Qed.

Lemma iter_num_succ c k :
  (- 2 ^ 53 ≤ c)%Z → (c + Z.of_nat k ≤ 2 ^ 53)%Z →
  Nat.iter k num_succ (Int c) = Int (c + Z.of_nat k).
Proof.
  intros Hlow. induction k as [|k IH]; intros Hhigh; simpl.
  - f_equal. lia.
  - rewrite IH by lia. rewrite num_succ_safe by lia. f_equal. lia.
Qed.

Lemma upcoming_safe bigToString c k :
  (- 2 ^ 53 ≤ c)%Z → (c + Z.of_nat k ≤ 2 ^ 53)%Z →
  upcoming bigToString (Int c) k = pretty (c + Z.of_nat k)%Z.
Proof.
  intros Hlow Hhigh. unfold upcoming.
  rewrite iter_num_succ by done. apply toString_safe. lia.
Qed.

Lemma property_nodeToJSON_id node :
  property (nodeToJSON node) "id" = Some (JString (node_id node)).
Proof. reflexivity. Qed.

(** One more than the largest id is larger than every id that [parseInt]
    reads, as long as adding one is exact. *)
Lemma maxId_fresh_nodes bigToString parseInt nodes m c k :
  readsIds parseInt nodes →
  maxId parseInt (JArray (nodeToJSON <$> nodes)) = Some m →
  num_succ m = Int c →
  (- 2 ^ 53 ≤ c)%Z → (c + Z.of_nat k < 2 ^ 53)%Z →
  upcoming bigToString (Int c) k ∉ node_id <$> nodes.
Proof.
  intros Hreads Hmax Hsucc Hlow Hhigh.
  rewrite upcoming_safe by lia.
  intros (node & Hid & Hnode)%list_elem_of_fmap.
  destruct (num_succ_Int_inv m c Hsucc) as (M & -> & HM); [lia|].
  assert (idNumber parseInt (nodeToJSON node) = Some (Int (c + Z.of_nat k)))
    as Hnumber.
  { unfold idNumber. rewrite property_nodeToJSON_id.
    by rewrite (Hreads node (c + Z.of_nat k)%Z Hnode ltac:(lia) (eq_sym Hid)). }
  pose proof (maxId_bound parseInt _ _ (nodeToJSON node) _ Hmax
                (list_elem_of_fmap_2 _ _ _ Hnode) Hnumber) as Hle.
  simpl in Hle. lia.
Qed.

Lemma readsIds_parseSmall : readsIds parseSmall [mkNode "1"; mkNode "2"].
Proof.
  intros node z Hin _ Hz.
  assert (node = mkNode "1" ∨ node = mkNode "2") as [-> | ->] by set_solver.
  - change (pretty 1%Z = pretty z) in Hz. by apply (inj pretty) in Hz as <-.
  - change (pretty 2%Z = pretty z) in Hz. by apply (inj pretty) in Hz as <-.
Qed.

Lemma onImport_unchecked parseInt data s :
  truthy (property data "nodes") && truthy (property data "edges") = false →
  (onImport parseInt (Some data) s).2 ≠ Some importSuccess.
Proof.
  intros Hfalsy. unfold onImport.
  destruct data as [| | | | |properties]; try done.
  unfold property in *.
  destruct (lookupProperty "nodes" properties) as [dn|]; [|done].
  destruct (lookupProperty "edges" properties) as [de|]; [|done].
  by rewrite Hfalsy.
Qed.

(** X24 ([onImport]): an import reports success exactly when the parsed
    document has, under [nodes], an array with no [null] in it and with
    no element on whose id [parseInt] throws, and any truthy value under
    [edges]; that value need not be an array.  The state is then the two
    values as they are, and the counter is the largest id plus one. *)
Theorem onImport_success parseInt file s :
  (onImport parseInt file s).2 = Some importSuccess ↔
  ∃ data items dataEdges,
    file = Some data ∧
    property data "nodes" = Some (JArray items) ∧
    property data "edges" = Some dataEdges ∧
    truthy (Some dataEdges) = true ∧
    (∀ n, n ∈ items →
          n ≠ JNull ∧ callParseInt parseInt (property n "id") ≠ ParseThrows) ∧
    ∃ m, maxId parseInt (JArray items) = Some m ∧
         (onImport parseInt file s).1
         = {| raw_nodes := JArray items; raw_edges := dataEdges;
              raw_counter := num_succ m |}.
Proof.
  split.
  - destruct file as [data|]; [|done].
    destruct (truthy (property data "nodes") && truthy (property data "edges"))
      eqn:Hcheck; [|by intros ?%(onImport_unchecked _ _ _ Hcheck)].
    apply andb_true_iff in Hcheck as [Htn Hte].
    destruct (property data "nodes") as [dataNodes|] eqn:Hn; [|done].
    destruct (property data "edges") as [dataEdges|] eqn:He; [|done].
    rewrite (onImport_checked _ _ _ _ _ Hn He Htn Hte).
    destruct (maxId parseInt dataNodes) as [m|] eqn:Hmax; [|done].
    intros _. destruct dataNodes as [| | | |items|]; try done.
    exists data, items, dataEdges. split_and!; try done.
    + intros n Hn'.
      assert (¬ idThrows parseInt n) as Hfine.
      { intros Hthrows.
        assert (maxId parseInt (JArray items) = None) as Hnone
          by (apply maxId_None; by exists n).
        congruence. }
      unfold idThrows in Hfine. split; intros ?; apply Hfine; [by left|by right].
    + by exists m.
  - intros (data & items & dataEdges & -> & Hn & He & Hte & Hfine & _).
    rewrite (onImport_checked _ _ _ _ _ Hn He eq_refl Hte).
    destruct (maxId parseInt (JArray items)) as [m|] eqn:Hmax; [done|].
    apply maxId_None in Hmax as (n & Hn' & [-> | Hthrows]);
      by destruct (Hfine _ Hn').
Qed.

(** X25 ([onImport]): importing the same file a second time changes
    nothing and shows the same toast, also when the import fails half
    way. *)
Theorem onImport_idempotent parseInt file s :
  onImport parseInt file (onImport parseInt file s).1
  = onImport parseInt file s.
Proof.
  destruct file as [data|]; [|done].
  destruct (truthy (property data "nodes") && truthy (property data "edges"))
    eqn:Hcheck.
  - apply andb_true_iff in Hcheck as [Htn Hte].
    destruct (property data "nodes") as [dataNodes|] eqn:Hn; [|done].
    destruct (property data "edges") as [dataEdges|] eqn:He; [|done].
    rewrite !(onImport_checked _ _ _ _ _ Hn He Htn Hte).
    by destruct (maxId parseInt dataNodes).
  - by rewrite (onImport_missing _ _ _ Hcheck).
Qed.

(** X26 ([onImport], [onExport], [onAddNode]): after the import of an
    exported graph that leaves the counter at an integer [c] from [-2^53]
    on, the ids that the counter hands out while they stay below [2^53]
    are ids of no imported node, provided [parseInt] reads the nodes'
    numeric ids back. *)
Theorem onImport_counter_fresh bigToString parseInt graphName isoTime ed s c k :
  readsIds parseInt (st_nodes ed) →
  raw_counter (onImport parseInt (Some (onExport graphName isoTime ed)) s).1
  = Int c →
  (- 2 ^ 53 ≤ c)%Z → (c + Z.of_nat k < 2 ^ 53)%Z →
  upcoming bigToString (Int c) k ∉ node_id <$> st_nodes ed.
Proof.
  intros Hreads Hcounter Hlow Hhigh.
  rewrite (onImport_checked parseInt _ _ _ s
             (property_onExport_nodes graphName isoTime ed)
             (property_onExport_edges graphName isoTime ed)
             eq_refl eq_refl) in Hcounter.
  destruct (maxId_nodes parseInt (st_nodes ed)) as [m Hmax].
  rewrite Hmax in Hcounter. cbn [fst raw_counter] in Hcounter.
  by apply (maxId_fresh_nodes bigToString parseInt _ m).
Qed.

Lemma onImport_counter_fresh_witness :
  readsIds parseSmall [mkNode "1"; mkNode "2"] ∧
  raw_counter
    (onImport parseSmall
       (Some (onExport None "t"
                {| st_nodes := [mkNode "1"; mkNode "2"]; st_edges := [];
                   nodeIdCounter := Int 1 |}))
       (storeOf initialEditor)).1 = Int 3 ∧
  (- 2 ^ 53 ≤ 3)%Z ∧ (3 + Z.of_nat 5 < 2 ^ 53)%Z ∧
  upcoming plainDigits (Int 3) 5 ∉ node_id <$> [mkNode "1"; mkNode "2"].
Proof.
  assert (- 2 ^ 53 ≤ 3)%Z as Hlow by lia.
  assert (3 + Z.of_nat 5 < 2 ^ 53)%Z as Hhigh by lia.
  split; [apply readsIds_parseSmall|]. split; [by vm_compute|].
  split; [done|]. split; [done|].
  apply (onImport_counter_fresh plainDigits parseSmall None "t"
           {| st_nodes := [mkNode "1"; mkNode "2"]; st_edges := [];
              nodeIdCounter := Int 1 |} (storeOf initialEditor) 3 5
           readsIds_parseSmall eq_refl Hlow Hhigh).
Defined.

(** X27 ([DAGEditor], the load effect): loading a graph fails exactly when
    its node array holds a [null] or an element on whose id [parseInt]
    throws.  Otherwise the editor holds two arrays, empty ones in place
    of values that are not arrays and when no graph is selected, and
    with no node to load the counter is 1. *)
Theorem loadGraph_arrays parseInt selectedGraph :
  (loadGraph parseInt selectedGraph = None ↔
   ∃ graph n, selectedGraph = Some graph ∧
              n ∈ arrayOrEmpty (graph_nodes graph) ∧ idThrows parseInt n) ∧
  ∀ s, loadGraph parseInt selectedGraph = Some s →
       raw_nodes s
       = JArray (from_option (λ graph, arrayOrEmpty (graph_nodes graph)) []
                             selectedGraph) ∧
       raw_edges s
       = JArray (from_option (λ graph, arrayOrEmpty (graph_edges graph)) []
                             selectedGraph) ∧
       (raw_nodes s = JArray [] → raw_counter s = Int 1).
Proof.
  destruct selectedGraph as [graph|]; cycle 1.
  { split; [split; [done|by intros (? & ? & ? & _)]|]. by intros s [= <-]. }
  unfold loadGraph. cbn [from_option].
  destruct (arrayOrEmpty (graph_nodes graph)) as [|n items] eqn:Hitems.
  { rewrite decide_False by (simpl; lia). split.
    - split; [done|]. intros (? & ? & [= <-] & Hin & _).
      rewrite Hitems in Hin. by apply elem_of_nil in Hin.
    - by intros s [= <-]. }
  rewrite decide_True by (simpl; lia).
  destruct (maxId parseInt (JArray (n :: items))) as [m|] eqn:Hmax;
    cbn [mbind option_bind].
  - split.
    + split; [done|]. intros (? & n' & [= <-] & Hin & Hthrows).
      rewrite Hitems in Hin.
      assert (maxId parseInt (JArray (n :: items)) = None) as Hnone
        by (apply maxId_None; by exists n').
      congruence.
    + by intros s [= <-].
  - split; [|done]. split; [|done]. intros _.
    apply maxId_None in Hmax as (n' & Hin & Hthrows).
    exists graph, n'. by rewrite Hitems.
Qed.

(** X28 ([DAGEditor], the load effect; [onAddNode]): loading a graph whose
    nodes are well-formed succeeds, and when it leaves the counter at an
    integer [c] from [-2^53] on, the ids that the counter hands out while
    they stay below [2^53] are ids of no loaded node, provided [parseInt]
    reads the nodes' numeric ids back. *)
Theorem loadGraph_counter_fresh bigToString parseInt graph nodes :
  readsIds parseInt nodes →
  graph_nodes graph = JArray (nodeToJSON <$> nodes) →
  ∃ s, loadGraph parseInt (Some graph) = Some s ∧
       raw_nodes s = JArray (nodeToJSON <$> nodes) ∧
       ∀ c k, raw_counter s = Int c →
              (- 2 ^ 53 ≤ c)%Z → (c + Z.of_nat k < 2 ^ 53)%Z →
              upcoming bigToString (Int c) k ∉ node_id <$> nodes.
Proof.
  intros Hreads Hnodes. unfold loadGraph. rewrite Hnodes.
  cbn [arrayOrEmpty].
  destruct (decide (0 < length (nodeToJSON <$> nodes))) as [Hpos|Hzero].
  - destruct (maxId_nodes parseInt nodes) as [m Hmax]. rewrite Hmax.
    cbn [mbind option_bind].
    eexists. split_and!; [done..|]. cbn [raw_counter].
    intros c k Hc Hlow Hhigh.
    by apply (maxId_fresh_nodes bigToString parseInt _ m).
  - eexists. split_and!; [done..|]. intros c k _ _ _.
    destruct nodes; [apply not_elem_of_nil|]. simpl in Hzero. lia.
Qed.

Lemma loadGraph_counter_fresh_witness :
  readsIds parseSmall [mkNode "1"; mkNode "2"] ∧
  graph_nodes (rowOf (JArray (nodeToJSON <$> [mkNode "1"; mkNode "2"])) JNull)
  = JArray (nodeToJSON <$> [mkNode "1"; mkNode "2"]) ∧
  ∃ s, loadGraph parseSmall
         (Some (rowOf (JArray (nodeToJSON <$> [mkNode "1"; mkNode "2"])) JNull))
       = Some s ∧
       raw_nodes s = JArray (nodeToJSON <$> [mkNode "1"; mkNode "2"]) ∧
       ∀ c k, raw_counter s = Int c →
              (- 2 ^ 53 ≤ c)%Z → (c + Z.of_nat k < 2 ^ 53)%Z →
              upcoming plainDigits (Int c) k
              ∉ node_id <$> [mkNode "1"; mkNode "2"].
Proof.
  split; [apply readsIds_parseSmall|]. split; [done|].
  apply (loadGraph_counter_fresh plainDigits parseSmall
           (rowOf (JArray (nodeToJSON <$> [mkNode "1"; mkNode "2"])) JNull)
           [mkNode "1"; mkNode "2"] readsIds_parseSmall eq_refl).
Defined.

(** X29 ([formatLastSaved]): in terms of the milliseconds since the save,
    the label is "Just now" below one minute (also for a save dated in
    the future), whole minutes below one hour, whole hours below one day,
    and the date from then on. *)
Theorem formatLastSaved_thresholds toLocaleDateString now d :
  formatLastSaved toLocaleDateString now (Some d)
  = let diff := (now - d)%Z in
    if (diff <? 60000)%Z then "Just now"
    else if (diff <? 3600000)%Z then pretty (diff `div` 60000)%Z +:+ "m ago"
    else if (diff <? 86400000)%Z then pretty (diff `div` 3600000)%Z +:+ "h ago"
    else toLocaleDateString d.
Proof.
  unfold formatLastSaved. cbv zeta. set (diff := (now - d)%Z).
  assert ((diff `div` 60000) `div` 60 = diff `div` 3600000)%Z as Hhours
    by (rewrite Z.div_div by lia; done).
  rewrite Hhours.
  destruct (diff <? 60000)%Z eqn:H1.
  { apply Z.ltb_lt in H1. rewrite (proj2 (Z.ltb_lt _ _)); [done|].
    apply Z.div_lt_upper_bound; lia. }
  apply Z.ltb_ge in H1.
  rewrite (proj2 (Z.ltb_ge (diff `div` 60000) 1))
    by (apply Z.div_le_lower_bound; lia).
  destruct (diff <? 3600000)%Z eqn:H2.
  { apply Z.ltb_lt in H2. rewrite (proj2 (Z.ltb_lt _ _)); [done|].
    apply Z.div_lt_upper_bound; lia. }
  apply Z.ltb_ge in H2.
  rewrite (proj2 (Z.ltb_ge (diff `div` 60000) 60))
    by (apply Z.div_le_lower_bound; lia).
  destruct (diff <? 86400000)%Z eqn:H3.
  { apply Z.ltb_lt in H3. rewrite (proj2 (Z.ltb_lt _ _)); [done|].
    apply Z.div_lt_upper_bound; lia. }
  apply Z.ltb_ge in H3.
  rewrite (proj2 (Z.ltb_ge (diff `div` 3600000) 24))
    by (apply Z.div_le_lower_bound; lia).
  done.
Qed.

(** ** The counter at its limits *)

(** X30 ([onAddNode]): where adding one leaves the counter as it is, at
    [2^53] and at the infinities, every [addNode] of a session without a
    confirmed [clear] allocates the same id. *)
Theorem allocated_stuck bigToString layout ops : ∀ ed,
  num_succ (nodeIdCounter ed) = nodeIdCounter ed →
  noClear ops →
  Forall (λ i, i = toString bigToString (nodeIdCounter ed))
         (allocated bigToString layout ed ops).
Proof.
  induction ops as [|op ops IH]; intros ed Hfix Hops; [constructor|].
  apply Forall_cons in Hops as [Hop Hops].
  assert (Hstep : nodeIdCounter (step bigToString layout ed op)
                  = nodeIdCounter ed).
  { rewrite (step_counter bigToString layout ed op Hop). by destruct op. }
  assert (Hrest : Forall (λ i, i = toString bigToString (nodeIdCounter ed))
                    (allocated bigToString layout
                       (step bigToString layout ed op) ops)).
  { rewrite <- Hstep. apply IH; [|done]. by rewrite Hstep. }
  destruct op; cbn [allocated]; try done. by constructor.
Qed.

Lemma allocated_stuck_witness :
  num_succ (nodeIdCounter atLimit) = nodeIdCounter atLimit
  ∧ noClear [AddNode "A" 0 0; AddNode "B" 0 0]
  ∧ allocated plainDigits noLayout atLimit [AddNode "A" 0 0; AddNode "B" 0 0]
    = ["9007199254740992"; "9007199254740992"]
  ∧ Forall (λ i, i = toString plainDigits (nodeIdCounter atLimit))
      (allocated plainDigits noLayout atLimit
         [AddNode "A" 0 0; AddNode "B" 0 0]).
Proof.
  assert (Hfix : num_succ (nodeIdCounter atLimit) = nodeIdCounter atLimit)
    by (by vm_compute).
  assert (Hops : noClear [AddNode "A" 0 0; AddNode "B" 0 0]).
  { unfold noClear. repeat constructor; discriminate. }
  split; [done|]. split; [done|]. split; [by vm_compute|].
  apply (allocated_stuck plainDigits noLayout _ atLimit Hfix Hops).
Defined.
